(** * Travel Guide Collection: smooth scrolling and the auto-hiding header

    A shallow embedding of [src/script.js]: the click handler installed by
    [initSmoothScroll], with its animation callback and easing function,
    and the scroll handler installed by [initFixedHeaderEffect] with the
    throttle around it; then the [debounce] and [isInViewport] utilities,
    the card reveal of [initIntersectionObserver] and the touch feedback of
    [detectTouchDevice].

    Numbers.  JavaScript numbers are modelled as exact rationals ([Q]):
    the arithmetic of the script ([+], [-], [*], [/], comparisons,
    [Math.abs]) is carried out without rounding, and numeric results are
    compared with [==] ([Qeq]).  The rounding of IEEE-754 doubles, [NaN]
    and the infinities are outside the model; in particular a division by
    zero, which the script never performs (its only divisors are [2] and the
    constant duration [1000]), is not given its JavaScript meaning. *)

From Stdlib Require Import QArith Qabs Lqa.
From stdpp Require Import gmap strings.

Open Scope Q_scope.

(** ** JavaScript operators on numbers *)

Module Js.

(** [x < y], [x <= y] and [x > y]. *)
Definition lt (x y : Q) : bool := negb (Qle_bool y x).
Definition le (x y : Q) : bool := Qle_bool x y.
Definition gt (x y : Q) : bool := lt y x.

(** [x || y] on numbers: [0] is the one falsy number of the model. *)
Definition or (x y : Q) : Q := if Qeq_bool x 0 then y else x.

(** [Math.abs]. *)
Definition abs (x : Q) : Q := Qabs x.

End Js.

(** ** The page: window, document, events *)

Module Dom.

(** The closure of one [animation] callback (script.js, lines 84-96): the
    constants it captures and its mutable [start], [None] while it is
    [null]. *)
Record Animation := {
  startPosition : Q;
  distance : Q;
  duration : Q;
  start : option Q
}.

(** What the script reads and writes of [window] and of
    [document.documentElement]: the two scroll offsets, and the callbacks
    handed to [requestAnimFrame] that have not run yet, oldest first. *)
Record Window := {
  pageYOffset : Q;
  scrollTop : Q;
  frameQueue : list Animation
}.

(** [requestAnimFrame(callback)]: the callback runs on a later frame. *)
Definition requestAnimFrame (cb : Animation) (w : Window) : Window :=
  {| pageYOffset := pageYOffset w;
     scrollTop := scrollTop w;
     frameQueue := frameQueue w ++ [cb] |}.

(** [window.scrollTo(0, y)].  The browser's clamping of [y] to the
    scrollable range is not modelled. *)
Definition scrollTo (y : Q) (w : Window) : Window :=
  {| pageYOffset := y; scrollTop := y; frameQueue := frameQueue w |}.

(** A window at rest at offset [s]. *)
Definition windowAt (s : Q) : Window :=
  {| pageYOffset := s; scrollTop := s; frameQueue := [] |}.

(** An element, as far as the script looks at it:
    [getBoundingClientRect().top]. *)
Record Element := { boundingTop : Q }.

(** [document.querySelector(selector)]: the first matching element,
    [null], or a [SyntaxError] exception when the string is not a
    selector. *)
Inductive QueryResult :=
| Matched (el : Element)
| NoMatch
| SyntaxError.

Record Document := { querySelector : string -> QueryResult }.

(** A page none of whose elements matches any selector. *)
Definition emptyDocument : Document := {| querySelector := fun _ => NoMatch |}.

(** The click event: whether [preventDefault] has been called on it. *)
Record Event := { defaultPrevented : bool }.

Definition preventDefault (e : Event) : Event := {| defaultPrevented := true |}.

(** [classList.add] and [classList.remove] on an element's set of classes. *)
Definition classList_add (c : string) (cl : gset string) : gset string :=
  {[ c ]} ∪ cl.
Definition classList_remove (c : string) (cl : gset string) : gset string :=
  cl ∖ {[ c ]}.

End Dom.

(** ** Smooth scrolling ([initSmoothScroll]) *)

Module SmoothScroll.
Import Dom.

(** [function ease(t, b, c, d)] (lines 98-103):
<<
      t /= d / 2;
      if (t < 1) return c / 2 * t * t + b;
      t--;
      return -c / 2 * (t * (t - 2) - 1) + b;
>>
    The successive values of the mutable parameter [t] are [t0] (after
    [t /= d / 2]) and [t1] (after [t--]). *)
Definition ease (t b c d : Q) : Q :=
  let t0 := t / (d / 2) in
  if Js.lt t0 1 then c / 2 * t0 * t0 + b
  else
    let t1 := t0 - 1 in
    - c / 2 * (t1 * (t1 - 2) - 1) + b.

(** Two auxiliary functions for stating what [ease] computes.  [halves]
    is the value of [t] after [t /= d / 2]: the elapsed time in
    half-durations.  [progress] is the fraction of the distance covered
    after [u] half-durations: [u^2 / 2] in the first half, and
    [(1 + 2v - v^2) / 2] with [v = u - 1] from then on. *)
Definition halves (t d : Q) : Q := t / (d / 2).

Definition progress (u : Q) : Q :=
  if Js.lt u 1 then u * u / 2
  else (1 + 2 * (u - 1) - (u - 1) * (u - 1)) / 2.

(** [function animation(currentTime)] (lines 90-96), run on the closure
    [a]: it scrolls, and asks for another frame while the duration has not
    elapsed.  The closure it hands on carries the assigned [start]. *)
Definition animation (a : Animation) (currentTime : Q) (w : Window) : Window :=
  let start' := match start a with None => currentTime | Some s => s end in
  let timeElapsed := currentTime - start' in
  let run := ease timeElapsed (startPosition a) (distance a) (duration a) in
  let w' := scrollTo run w in
  if Js.lt timeElapsed (duration a)
  then requestAnimFrame
         {| startPosition := startPosition a; distance := distance a;
            duration := duration a; start := Some start' |} w'
  else w'.

(** How a handler ends: it returns, or an exception leaves it. *)
Inductive Completion := Returns | Throws.

(** The click listener of an [a[href^="#"]] link (lines 69-107), on the
    link's [href] attribute.  It yields the window and the event as the
    handler leaves them. *)
Definition clickHandler (doc : Document) (href : string)
    (w : Window) (e : Event) : Window * Event * Completion :=
  if String.eqb href "#" then (w, preventDefault e, Returns)
  else
    match querySelector doc href with
    | SyntaxError => (w, e, Throws)
    | NoMatch => (w, e, Returns)
    | Matched target =>
        let e' := preventDefault e in
        let targetPosition := boundingTop target + pageYOffset w in
        let startPosition := pageYOffset w in
        let distance := targetPosition - startPosition in
        let duration := 1000 in
        (requestAnimFrame
           {| Dom.startPosition := startPosition; Dom.distance := distance;
              Dom.duration := duration; start := None |} w,
         e', Returns)
    end.

End SmoothScroll.

(** ** The auto-hiding header ([initFixedHeaderEffect]) *)

Module FixedHeader.
Import Dom.

Definition header_hidden : string := "header-hidden".
Definition header_scrolled : string := "header-scrolled".

(** The [header] element's classes together with the closure variable
    [lastScrollTop]. *)
Record Header := {
  classList : gset string;
  lastScrollTop : Q
}.

Definition scrollThreshold : Q := 100.
Definition deltaThreshold : Q := 5.

(** [window.pageYOffset || document.documentElement.scrollTop]. *)
Definition currentScroll (w : Window) : Q := Js.or (pageYOffset w) (scrollTop w).

(** [headerScrollHandler] (lines 124-159). *)
Definition headerScrollHandler (w : Window) (h : Header) : Header :=
  let currentScroll := currentScroll w in
  if Js.lt currentScroll 0 then h
  else if Js.le currentScroll scrollThreshold then
    {| classList :=
         classList_remove header_scrolled
           (classList_remove header_hidden (classList h));
       lastScrollTop := currentScroll |}
  else
    let scrollDelta := currentScroll - lastScrollTop h in
    if Js.lt (Js.abs scrollDelta) deltaThreshold then h
    else if Js.gt scrollDelta 0 then
      {| classList :=
           classList_add header_scrolled
             (classList_add header_hidden (classList h));
         lastScrollTop := currentScroll |}
    else
      {| classList :=
           classList_add header_scrolled
             (classList_remove header_hidden (classList h));
         lastScrollTop := currentScroll |}.

(** The state [initFixedHeaderEffect] sets up for a header whose classes
    are [cl]: [let lastScrollTop = 0]. *)
Definition initialHeader (cl : gset string) : Header :=
  {| classList := cl; lastScrollTop := 0 |}.

(** [initFixedHeaderEffect] (lines 115-179) up to the registration of the
    listener: nothing without a header element, else the initial check. *)
Definition initFixedHeaderEffect (header : option (gset string)) (w : Window)
    : option Header :=
  match header with
  | None => None
  | Some cl => Some (headerScrollHandler w (initialHeader cl))
  end.

(** The handler run once per window snapshot, in order; [headerTrace]
    lists the header after each run. *)
Fixpoint headerTrace (ws : list Window) (h : Header) : list Header :=
  match ws with
  | [] => []
  | w :: ws' =>
      let h' := headerScrollHandler w h in
      h' :: headerTrace ws' h'
  end.

Definition headerAfter (ws : list Window) (h : Header) : Header :=
  foldl (fun h w => headerScrollHandler w h) h ws.

(** The observable state of the header: which of the two classes it has. *)
Inductive HeaderState :=
| StateNone
| StateScrolled
| StateHiddenScrolled
| StateHiddenOnly.

Definition headerState (h : Header) : HeaderState :=
  match bool_decide (header_hidden ∈ classList h),
        bool_decide (header_scrolled ∈ classList h) with
  | false, false => StateNone
  | false, true => StateScrolled
  | true, true => StateHiddenScrolled
  | true, false => StateHiddenOnly
  end.

(** Whenever the header is hidden it also has the scrolled style. *)
Definition hiddenImpliesScrolled (h : Header) : Prop :=
  header_hidden ∈ classList h -> header_scrolled ∈ classList h.

End FixedHeader.

(** ** Rendering frames *)

Module Frames.
Import Dom SmoothScroll.

(** One rendering frame of a browser with a native [requestAnimationFrame]:
    the callbacks queued so far are taken off the queue and run in the
    order they were queued, all with the frame's timestamp; what they queue
    in turn waits for the next frame. *)
Definition runFrame (currentTime : Q) (w : Window) : Window :=
  foldl (fun w' a => animation a currentTime w')
    {| pageYOffset := pageYOffset w; scrollTop := scrollTop w;
       frameQueue := [] |}
    (frameQueue w).

(** Successive frames, at the given timestamps. *)
Definition runFrames (times : list Q) (w : Window) : Window :=
  foldl (fun w' t => runFrame t w') w times.

End Frames.

(** ** The throttle around the scroll handler ([requestTick]) *)

Module Throttle.
Import Dom FixedHeader.

(** The header with the closure variable [ticking] (line 162), and the
    number of tick callbacks (lines 166-169) waiting for a frame. *)
Record State := {
  header : Header;
  ticking : bool;
  pendingTicks : nat
}.

(** [requestTick] (lines 164-172), the listener of the scroll event. *)
Definition requestTick (s : State) : State :=
  if negb (ticking s)
  then {| header := header s; ticking := true;
          pendingTicks := S (pendingTicks s) |}
  else s.

(** The callback [requestTick] queues: the handler, then
    [ticking = false].  It reads the window as it is when it runs. *)
Definition tickCallback (w : Window) (s : State) : State :=
  {| header := headerScrollHandler w (header s); ticking := false;
     pendingTicks := pendingTicks s |}.

(** What happens to the throttle: a scroll event is dispatched, or the
    browser runs the oldest waiting tick callback, the window being [w]. *)
Inductive Event :=
| ScrollEvent
| RunTick (w : Window).

Definition step (s : State) (ev : Event) : State :=
  match ev with
  | ScrollEvent => requestTick s
  | RunTick w =>
      match pendingTicks s with
      | O => s
      | S n =>
          tickCallback w
            {| header := header s; ticking := ticking s; pendingTicks := n |}
      end
  end.

Definition run (evs : list Event) (s : State) : State := foldl step s evs.

(** [initFixedHeaderEffect] with a header present (lines 120-178): the
    initial check, then the listener is registered with nothing pending. *)
Definition start (cl : gset string) (w : Window) : State :=
  {| header := headerScrollHandler w (initialHeader cl); ticking := false;
     pendingTicks := 0 |}.

(** No callback waits and the flag is down. *)
Definition idle (s : State) : Prop := ticking s = false /\ pendingTicks s = O.

End Throttle.

(** ** The debounce utility *)

Module Debounce.

(** The state of one function returned by [debounce(func, wait)] (lines
    36-46): the closure variable [timeout] ([None] while [undefined]), the
    timers it has set that are still pending (the identifier of each, with
    its deadline and the arguments its [later] closure captured), the next
    timer identifier, and the arguments [func] has been invoked with so
    far, oldest first.  Timers of the rest of the page are left out: no
    call here can name them. *)
Record State (A : Type) := {
  timeout : option nat;
  timers : gmap nat (Q * A);
  nextTimer : nat;
  invoked : list A
}.
Arguments timeout {A} _.
Arguments timers {A} _.
Arguments nextTimer {A} _.
Arguments invoked {A} _.

Definition initial {A : Type} : State A :=
  {| timeout := None; timers := ∅; nextTimer := 0; invoked := [] |}.

(** [clearTimeout(id)]: nothing happens for [undefined], nor for a timer
    that is no longer pending. *)
Definition clearTimeout {A : Type} (id : option nat)
    (ts : gmap nat (Q * A)) : gmap nat (Q * A) :=
  match id with
  | Some i => delete i ts
  | None => ts
  end.

(** [executedFunction(...args)] called at time [now]:
    [clearTimeout(timeout); timeout = setTimeout(later, wait)]. *)
Definition executedFunction {A : Type} (wait now : Q) (args : A)
    (s : State A) : State A :=
  {| timeout := Some (nextTimer s);
     timers :=
       <[ nextTimer s := (now + wait, args) ]>
         (clearTimeout (timeout s) (timers s));
     nextTimer := S (nextTimer s);
     invoked := invoked s |}.

(** The browser runs the timer [id] at time [now], if it is pending and
    due: the timer is spent, and its [later] does
    [clearTimeout(timeout); func(...args)]. *)
Definition timerFires {A : Type} (now : Q) (id : nat)
    (s : State A) : State A :=
  match timers s !! id with
  | Some (deadline, args) =>
      if Js.le deadline now then
        {| timeout := timeout s;
           timers := clearTimeout (timeout s) (delete id (timers s));
           nextTimer := nextTimer s;
           invoked := invoked s ++ [args] |}
      else s
  | None => s
  end.

Inductive Event (A : Type) :=
| Call (now : Q) (args : A)
| TimerFires (now : Q) (id : nat).
Arguments Call {A} _ _.
Arguments TimerFires {A} _ _.

Definition step {A : Type} (wait : Q) (s : State A) (ev : Event A) : State A :=
  match ev with
  | Call now args => executedFunction wait now args s
  | TimerFires now id => timerFires now id s
  end.

Definition run {A : Type} (wait : Q) (evs : list (Event A)) (s : State A)
    : State A :=
  foldl (step wait) s evs.

(** The arguments of the calls among the events, in order. *)
Definition calledWith {A : Type} (evs : list (Event A)) : list A :=
  omap (fun ev => match ev with
                  | Call _ args => Some args
                  | TimerFires _ _ => None
                  end) evs.

(** Only the timer [timeout] names can be pending. *)
Definition onlyLatestPending {A : Type} (s : State A) : Prop :=
  forall id, is_Some (timers s !! id) -> timeout s = Some id.

End Debounce.

(** ** Revealing cards ([initIntersectionObserver]) *)

Module Reveal.

(** The inline style of the page's elements: for each element (a number
    stands for its identity) the value the script last assigned to each
    property of its [style] object.  An element without an entry has had
    nothing assigned. *)
Definition styleOf (styles : gmap nat (gmap string string)) (el : nat)
    : gmap string string :=
  default ∅ (styles !! el).

Definition setStyle (el : nat) (st : gmap string string)
    (styles : gmap nat (gmap string string)) : gmap nat (gmap string string) :=
  <[ el := st ]> styles.

(** An entry handed to the observer's callback. *)
Record Entry := {
  isIntersecting : bool;
  target : nat
}.

Definition transformValue : string := "translateY(0)".

(** The assignments of lines 209-217, on one style object. *)
Definition animateIntoView (st : gmap string string) : gmap string string :=
  <[ "transform" := transformValue ]>
    (<[ "oTransform" := transformValue ]>
       (<[ "msTransform" := transformValue ]>
          (<[ "mozTransform" := transformValue ]>
             (<[ "webkitTransform" := transformValue ]>
                (<[ "opacity" := "1" ]> st))))).

(** [observerCallback] (lines 203-223). *)
Definition observerCallback (entries : list Entry)
    (styles : gmap nat (gmap string string)) : gmap nat (gmap string string) :=
  foldl (fun sts entry =>
           if isIntersecting entry
           then setStyle (target entry)
                  (animateIntoView (styleOf sts (target entry))) sts
           else sts)
        styles entries.

(** The assignments of the fallback (lines 192-193). *)
Definition showCard (st : gmap string string) : gmap string string :=
  <[ "transform" := "translateY(0)" ]> (<[ "opacity" := "1" ]> st).

(** [initIntersectionObserver] (lines 185-232), given whether
    [IntersectionObserver] exists and the elements matching [.card]: the
    styles it leaves, and the elements it has the observer watch. *)
Definition initIntersectionObserver (supported : bool) (cards : list nat)
    (styles : gmap nat (gmap string string))
    : gmap nat (gmap string string) * list nat :=
  if negb supported then
    (foldl (fun sts card => setStyle card (showCard (styleOf sts card)) sts)
       styles cards,
     [])
  else (styles, cards).

(** A card is shown once it is opaque and back at its place. *)
Definition shown (st : gmap string string) : Prop :=
  st !! "opacity" = Some "1" /\ st !! "transform" = Some "translateY(0)".

End Reveal.

(** ** The viewport test ([isInViewport]) *)

Module Viewport.

(** [element.getBoundingClientRect()]. *)
Record Rect := {
  rectTop : Q;
  rectLeft : Q;
  rectBottom : Q;
  rectRight : Q
}.

(** The sizes [isInViewport] reads off [window] and
    [document.documentElement]. *)
Record Size := {
  innerHeight : Q;
  clientHeight : Q;
  innerWidth : Q;
  clientWidth : Q
}.

(** [x >= y]. *)
Definition ge (x y : Q) : bool := Js.le y x.

Definition viewportHeight (v : Size) : Q := Js.or (innerHeight v) (clientHeight v).
Definition viewportWidth (v : Size) : Q := Js.or (innerWidth v) (clientWidth v).

(** [isInViewport] (lines 51-59). *)
Definition isInViewport (rect : Rect) (v : Size) : bool :=
  ge (rectTop rect) 0 &&
  ge (rectLeft rect) 0 &&
  Js.le (rectBottom rect) (Js.or (innerHeight v) (clientHeight v)) &&
  Js.le (rectRight rect) (Js.or (innerWidth v) (clientWidth v)).

End Viewport.

(** ** Touch feedback on buttons ([detectTouchDevice]) *)

Module Touch.
Import Dom.

Definition touched : string := "touched".

(** One [.card-button] on a touch device: its classes, and the deadlines
    of the 300 ms timers its [touchend] listener has set that have not run
    yet, oldest first.  The timers all wait equally long and none is ever
    cancelled, so they run in the order they were set. *)
Record Button := {
  classes : gset string;
  removals : list Q
}.

Inductive Event :=
| TouchStart
| TouchEnd (now : Q)
| TimerFires (now : Q).

(** The [touchstart] listener (lines 249-251), the [touchend] listener
    (lines 253-258), and the run of the oldest timer, once it is due. *)
Definition step (b : Button) (ev : Event) : Button :=
  match ev with
  | TouchStart =>
      {| classes := classList_add touched (classes b);
         removals := removals b |}
  | TouchEnd now =>
      {| classes := classes b; removals := removals b ++ [now + 300] |}
  | TimerFires now =>
      match removals b with
      | [] => b
      | deadline :: rest =>
          if Js.le deadline now
          then {| classes := classList_remove touched (classes b);
                  removals := rest |}
          else b
      end
  end.

Definition run (evs : list Event) (b : Button) : Button := foldl step b evs.

End Touch.

(** * Properties *)

(** ** The comparison operators decide the order of [Q] *)

Module JsFacts.

Lemma lt_true x y : Js.lt x y = true <-> x < y.
Proof.
  unfold Js.lt. rewrite negb_true_iff.
  split; intros H.
  - apply Qnot_le_lt. intros Hle. apply Qle_bool_iff in Hle. congruence.
  - destruct (Qle_bool y x) eqn:E; [|reflexivity].
    apply Qle_bool_iff in E. lra.
Qed.

Lemma lt_false x y : Js.lt x y = false <-> y <= x.
Proof.
  unfold Js.lt. rewrite negb_false_iff. apply Qle_bool_iff.
Qed.

Lemma le_true x y : Js.le x y = true <-> x <= y.
Proof. apply Qle_bool_iff. Qed.

Lemma le_false x y : Js.le x y = false <-> y < x.
Proof.
  unfold Js.le. split; intros H.
  - apply Qnot_le_lt. intros Hle. apply Qle_bool_iff in Hle. congruence.
  - destruct (Qle_bool x y) eqn:E; [|reflexivity].
    apply Qle_bool_iff in E. lra.
Qed.

Lemma gt_true x y : Js.gt x y = true <-> y < x.
Proof. apply lt_true. Qed.

Lemma gt_false x y : Js.gt x y = false <-> x <= y.
Proof. apply lt_false. Qed.

Lemma or_nonzero x y : ~ x == 0 -> Js.or x y = x.
Proof.
  intros H. unfold Js.or.
  destruct (Qeq_bool x 0) eqn:E; [|reflexivity].
  apply Qeq_bool_iff in E. contradiction.
Qed.

Lemma or_zero x y : x == 0 -> Js.or x y = y.
Proof. intros H. unfold Js.or. now rewrite (Qeq_eq_bool _ _ H). Qed.

End JsFacts.

(** ** The easing function *)

Module EaseFacts.
Import SmoothScroll.

(** [x / 2] is [x * (1 # 2)] by computation; in that form the linear and
    non-linear arithmetic procedures see through the division. *)
Ltac half_const := unfold Qdiv in *; change (/ 2) with (1 # 2) in *.

(** Case analysis on a comparison of the script. *)
Ltac case_lt x y :=
  let E := fresh "E" in
  destruct (Js.lt x y) eqn:E;
  [apply JsFacts.lt_true in E | apply JsFacts.lt_false in E].

(** A scroll of 500 from offset 40 over 1000 ms: a quarter, a half and
    three quarters of the way through, and the same scroll upwards. *)
Example ease_quarter : ease 250 40 500 1000 == 205 # 2.
Proof. reflexivity. Qed.

Example ease_midpoint : ease 500 40 500 1000 == 290.
Proof. reflexivity. Qed.

Example ease_three_quarters : ease 750 40 500 1000 == 955 # 2.
Proof. reflexivity. Qed.

Example ease_midpoint_upwards : ease 500 40 (- 500) 1000 == - 210.
Proof. reflexivity. Qed.

(** [ease] is the start position plus the distance scaled by the progress
    made after [halves t d] half-durations. *)
Lemma ease_progress t b c d :
  ease t b c d == c * progress (halves t d) + b.
Proof.
  unfold ease, progress, halves.
  destruct (Js.lt (t / (d / 2)) 1); half_const; ring.
Qed.

#[export] Instance progress_proper : Proper (Qeq ==> Qeq) progress.
Proof.
  intros u v Huv. unfold progress.
  case_lt u 1; case_lt v 1; try lra; rewrite Huv; reflexivity.
Qed.

Lemma progress_start : progress 0 == 0.
Proof. reflexivity. Qed.

Lemma progress_end : progress 2 == 1.
Proof. reflexivity. Qed.

Lemma progress_mono u v : 0 <= u -> u <= v -> v <= 2 -> progress u <= progress v.
Proof.
  intros H0 Huv H2. unfold progress.
  case_lt u 1; case_lt v 1; half_const.
  - assert (0 <= (v - u) * (v + u)) by nra. lra.
  - assert (u * u <= 1) by nra.
    assert (0 <= (v - 1) * (2 - (v - 1))) by nra. lra.
  - lra.
  - assert (0 <= (v - u) * (2 - (u - 1) - (v - 1))) by nra. lra.
Qed.

Lemma progress_mirror u : progress (2 - u) == 1 - progress u.
Proof.
  unfold progress.
  case_lt u 1; case_lt (2 - u) 1; half_const; try ring; try lra.
  assert (Hu : u == 1) by lra. rewrite Hu. reflexivity.
Qed.

Section Halves.
Variable d : Q.
Hypothesis d_pos : 0 < d.

Lemma halves_zero : halves 0 d == 0.
Proof. unfold halves. field. lra. Qed.

Lemma halves_full : halves d d == 2.
Proof. unfold halves. field. lra. Qed.

Lemma halves_mirror t : halves (d - t) d == 2 - halves t d.
Proof. unfold halves. field. lra. Qed.

Lemma halves_mono t1 t2 : t1 <= t2 -> halves t1 d <= halves t2 d.
Proof.
  intros Hle. unfold halves.
  assert (Hh : 0 < d / 2) by (half_const; lra).
  apply Qmult_le_compat_r; [exact Hle|].
  apply Qlt_le_weak, Qinv_lt_0_compat, Hh.
Qed.

Lemma halves_nonneg t : 0 <= t -> 0 <= halves t d.
Proof. intros Ht. rewrite <- halves_zero. now apply halves_mono. Qed.

Lemma halves_le_2 t : t <= d -> halves t d <= 2.
Proof. intros Ht. rewrite <- halves_full. now apply halves_mono. Qed.

Lemma ease_start b c : ease 0 b c d == b.
Proof. rewrite ease_progress, halves_zero, progress_start. ring. Qed.

Lemma ease_end b c : ease d b c d == b + c.
Proof. rewrite ease_progress, halves_full, progress_end. ring. Qed.

Lemma progress_halves_mono t1 t2 :
  0 <= t1 -> t1 <= t2 -> t2 <= d ->
  progress (halves t1 d) <= progress (halves t2 d).
Proof.
  intros H0 H12 H2d.
  apply progress_mono;
    [now apply halves_nonneg | now apply halves_mono | now apply halves_le_2].
Qed.
End Halves.

(** C3.  For every start position [b], distance [c] and positive duration
    [d], the eased position is [b] at elapsed time [0] and [b + c] at
    elapsed time [d]. *)
Theorem ease_endpoints b c d :
  0 < d -> ease 0 b c d == b /\ ease d b c d == b + c.
Proof.
  intros Hd. split; [now apply ease_start | now apply ease_end].
Qed.

Lemma ease_endpoints_witness :
  ease 0 40 500 1000 == 40 /\ ease 1000 40 500 1000 == 40 + 500.
Proof. apply (ease_endpoints 40 500 1000). reflexivity. Defined.

(** C4.  For a positive duration [d] and times [t1 <= t2] in [[0, d]], the
    eased position moves in the direction of the distance [c]: it does not
    decrease when [c >= 0] and does not increase when [c <= 0]. *)
Theorem ease_monotonic t1 t2 b c d :
  0 < d -> 0 <= t1 -> t1 <= t2 -> t2 <= d ->
  (0 <= c -> ease t1 b c d <= ease t2 b c d) /\
  (c <= 0 -> ease t1 b c d >= ease t2 b c d).
Proof.
  intros Hd H0 H12 H2d.
  pose proof (progress_halves_mono d Hd t1 t2 H0 H12 H2d) as Hp.
  rewrite !ease_progress.
  split; intros Hc; nra.
Qed.

Lemma ease_monotonic_witness :
  (0 <= 500 -> ease 250 40 500 1000 <= ease 750 40 500 1000) /\
  (500 <= 0 -> ease 250 40 500 1000 >= ease 750 40 500 1000).
Proof.
  apply (ease_monotonic 250 750 40 500 1000); vm_compute; congruence.
Defined.

(** C5.  The curve is symmetric about the midpoint of the duration: for a
    positive duration [d] and every [t] in [[0, d]], the positions at [t]
    and at [d - t] add up to [2 * b + c]. *)
Theorem ease_symmetric t b c d :
  0 < d -> 0 <= t -> t <= d ->
  ease t b c d + ease (d - t) b c d == 2 * b + c.
Proof.
  intros Hd _ _.
  rewrite !ease_progress, (halves_mirror d Hd), progress_mirror. ring.
Qed.

Lemma ease_symmetric_witness :
  ease 250 40 500 1000 + ease (1000 - 250) 40 500 1000 == 2 * 40 + 500.
Proof.
  apply (ease_symmetric 250 40 500 1000); vm_compute; congruence.
Defined.

End EaseFacts.

(** ** The auto-hiding header *)

Module HeaderFacts.
Import Dom FixedHeader.

Lemma hidden_ne_scrolled : header_hidden ≠ header_scrolled.
Proof. discriminate. Qed.

(** Membership in a class list built by [classList.add] and
    [classList.remove]. *)
Ltac classes :=
  unfold classList_add, classList_remove;
  rewrite ?elem_of_union, ?elem_of_difference, ?elem_of_singleton;
  pose proof hidden_ne_scrolled; intuition congruence.

(** *** The four ways through [headerScrollHandler] *)

Section Branches.
Variables (w : Window) (h : Header).

(** Overscroll: a negative offset is ignored. *)
Lemma handler_overscroll :
  currentScroll w < 0 -> headerScrollHandler w h = h.
Proof.
  intros Hneg. unfold headerScrollHandler.
  apply JsFacts.lt_true in Hneg. now rewrite Hneg.
Qed.

(** Top of the page: both classes go, the offset is recorded. *)
Lemma handler_top :
  0 <= currentScroll w -> currentScroll w <= scrollThreshold ->
  headerScrollHandler w h =
    {| classList :=
         classList_remove header_scrolled
           (classList_remove header_hidden (classList h));
       lastScrollTop := currentScroll w |}.
Proof.
  intros H0 Hle. unfold headerScrollHandler.
  apply JsFacts.lt_false in H0. apply JsFacts.le_true in Hle.
  now rewrite H0, Hle.
Qed.

(** Below the top, the first two tests fail. *)
Lemma handler_below_top :
  scrollThreshold < currentScroll w ->
  headerScrollHandler w h =
    let scrollDelta := currentScroll w - lastScrollTop h in
    if Js.lt (Js.abs scrollDelta) deltaThreshold then h
    else if Js.gt scrollDelta 0 then
      {| classList :=
           classList_add header_scrolled
             (classList_add header_hidden (classList h));
         lastScrollTop := currentScroll w |}
    else
      {| classList :=
           classList_add header_scrolled
             (classList_remove header_hidden (classList h));
         lastScrollTop := currentScroll w |}.
Proof.
  intros Hgt. unfold headerScrollHandler.
  assert (H0 : 0 <= currentScroll w) by (unfold scrollThreshold in Hgt; lra).
  apply JsFacts.lt_false in H0. apply JsFacts.le_false in Hgt.
  now rewrite H0, Hgt.
Qed.

(** A movement smaller than the delta threshold is ignored. *)
Lemma handler_small_delta :
  scrollThreshold < currentScroll w ->
  Qabs (currentScroll w - lastScrollTop h) < deltaThreshold ->
  headerScrollHandler w h = h.
Proof.
  intros Hgt Habs. rewrite (handler_below_top Hgt). cbv zeta.
  apply JsFacts.lt_true in Habs. unfold Js.abs. now rewrite Habs.
Qed.

(** Scrolling down by at least the delta threshold hides the header. *)
Lemma handler_down :
  scrollThreshold < currentScroll w ->
  deltaThreshold <= currentScroll w - lastScrollTop h ->
  headerScrollHandler w h =
    {| classList :=
         classList_add header_scrolled
           (classList_add header_hidden (classList h));
       lastScrollTop := currentScroll w |}.
Proof.
  intros Hgt Hd. rewrite (handler_below_top Hgt). cbv zeta.
  unfold deltaThreshold in Hd.
  assert (Habs : deltaThreshold <= Qabs (currentScroll w - lastScrollTop h)).
  { unfold deltaThreshold. rewrite Qabs_pos; lra. }
  apply JsFacts.lt_false in Habs. unfold Js.abs. rewrite Habs.
  assert (Hpos : 0 < currentScroll w - lastScrollTop h) by lra.
  apply JsFacts.gt_true in Hpos. now rewrite Hpos.
Qed.

(** Scrolling up by at least the delta threshold shows it again. *)
Lemma handler_up :
  scrollThreshold < currentScroll w ->
  currentScroll w - lastScrollTop h <= - deltaThreshold ->
  headerScrollHandler w h =
    {| classList :=
         classList_add header_scrolled
           (classList_remove header_hidden (classList h));
       lastScrollTop := currentScroll w |}.
Proof.
  intros Hgt Hd. rewrite (handler_below_top Hgt). cbv zeta.
  unfold deltaThreshold in Hd.
  assert (Habs : deltaThreshold <= Qabs (currentScroll w - lastScrollTop h)).
  { unfold deltaThreshold. rewrite Qabs_neg; lra. }
  apply JsFacts.lt_false in Habs. unfold Js.abs. rewrite Habs.
  assert (Hneg : currentScroll w - lastScrollTop h <= 0) by lra.
  apply JsFacts.gt_false in Hneg. now rewrite Hneg.
Qed.
End Branches.

(** *** The observable state after each kind of update *)

Section States.
Variables (cl : gset string) (s : Q).

Lemma state_cleared :
  headerState
    {| classList :=
         classList_remove header_scrolled (classList_remove header_hidden cl);
       lastScrollTop := s |} = StateNone.
Proof.
  unfold headerState. cbn [classList].
  rewrite !bool_decide_eq_false_2; [reflexivity | classes | classes].
Qed.

Lemma state_hidden :
  headerState
    {| classList :=
         classList_add header_scrolled (classList_add header_hidden cl);
       lastScrollTop := s |} = StateHiddenScrolled.
Proof.
  unfold headerState. cbn [classList].
  rewrite !bool_decide_eq_true_2; [reflexivity | classes | classes].
Qed.

Lemma state_shown :
  headerState
    {| classList :=
         classList_add header_scrolled (classList_remove header_hidden cl);
       lastScrollTop := s |} = StateScrolled.
Proof.
  unfold headerState. cbn [classList].
  rewrite bool_decide_eq_false_2 by classes.
  rewrite bool_decide_eq_true_2 by classes. reflexivity.
Qed.
End States.

(** *** Frame conditions *)

(** C6.  At a non-negative offset of at most [scrollThreshold] (100) the
    handler leaves the header in the state [none], whatever it was before:
    both classes are removed (and no other class is touched), and
    [lastScrollTop] becomes the current offset. *)
Theorem top_of_page_resets w h :
  0 <= currentScroll w -> currentScroll w <= 100 ->
  headerState (headerScrollHandler w h) = StateNone /\
  (forall c, c ∈ classList (headerScrollHandler w h) <->
             c ∈ classList h /\ c ≠ header_hidden /\ c ≠ header_scrolled) /\
  lastScrollTop (headerScrollHandler w h) = currentScroll w.
Proof.
  intros H0 Hle. rewrite (handler_top w h H0 Hle).
  split; [apply state_cleared | split; [|reflexivity]].
  intros c. cbn [classList]. unfold classList_remove.
  rewrite !elem_of_difference, !elem_of_singleton. tauto.
Qed.

Lemma top_of_page_resets_witness :
  let w := windowAt 50 in
  let h := {| classList := {[ header_hidden; header_scrolled ]};
              lastScrollTop := 300 |} in
  headerState (headerScrollHandler w h) = StateNone /\
  (forall c, c ∈ classList (headerScrollHandler w h) <->
             c ∈ classList h /\ c ≠ header_hidden /\ c ≠ header_scrolled) /\
  lastScrollTop (headerScrollHandler w h) = currentScroll w.
Proof.
  intros w h. apply (top_of_page_resets w h); vm_compute; congruence.
Defined.

(** C2, as the code has it.  When the current offset is outside the
    top-of-page range (negative, or greater than [scrollThreshold]) and
    differs from [lastScrollTop] by less than [deltaThreshold] (5) in
    magnitude, the handler changes neither [lastScrollTop] nor the
    header's classes. *)
Theorem small_delta_ignored w h :
  currentScroll w < 0 \/ 100 < currentScroll w ->
  Qabs (currentScroll w - lastScrollTop h) < 5 ->
  headerScrollHandler w h = h.
Proof.
  intros [Hneg|Hgt] Habs.
  - now apply handler_overscroll.
  - now apply handler_small_delta.
Qed.

Lemma small_delta_ignored_witness :
  let w := windowAt 203 in
  let h := {| classList := {[ header_scrolled ]}; lastScrollTop := 200 |} in
  headerScrollHandler w h = h.
Proof.
  intros w h. apply (small_delta_ignored w h).
  - right. vm_compute. congruence.
  - vm_compute. congruence.
Defined.

(** C2, as stated, fails at the top of the page.  After the handler has run
    at offset 102 the header is hidden and [lastScrollTop] is 102; a run at
    offset 99 has a delta of magnitude 3, yet it records 99 and clears the
    header's classes. *)
Lemma small_delta_at_top_changes_state :
  let h := headerScrollHandler (windowAt 102) (initialHeader ∅) in
  let h' := headerScrollHandler (windowAt 99) h in
  Qabs (currentScroll (windowAt 99) - lastScrollTop h) < 5 /\
  ~ (lastScrollTop h' == lastScrollTop h) /\
  headerState h' <> headerState h.
Proof.
  cbv zeta. repeat split; vm_compute; congruence.
Qed.

(** The initial check of [initFixedHeaderEffect] is one run of the handler
    from the initial state, so it starts every sequence of runs. *)
Lemma init_is_first_run cl w ws :
  initFixedHeaderEffect (Some cl) w = Some (headerAfter [w] (initialHeader cl)) /\
  headerAfter (w :: ws) (initialHeader cl) =
    headerAfter ws (headerAfter [w] (initialHeader cl)).
Proof. split; reflexivity. Qed.

(** *** Scenarios *)

(** C8.  From the initial header state (neither class, [lastScrollTop = 0])
    the offsets 0, 50, 120, 200 give the states none, none,
    hidden+scrolled, hidden+scrolled.  Classes other than the two the
    handler manages play no part, so the header may carry any. *)
Theorem scenario_scroll_down cl :
  map headerState
    (headerTrace (map windowAt [0; 50; 120; 200]) (initialHeader cl))
  = [StateNone; StateNone; StateHiddenScrolled; StateHiddenScrolled].
Proof.
  cbn [map headerTrace].
  rewrite (handler_top (windowAt 0)) by (vm_compute; congruence).
  rewrite (handler_top (windowAt 50)) by (vm_compute; congruence).
  rewrite (handler_down (windowAt 120)) by (vm_compute; congruence).
  rewrite (handler_down (windowAt 200)) by (vm_compute; congruence).
  now rewrite !state_cleared, !state_hidden.
Qed.

(** C9.  From the initial header state the offset 300 hides the header
    (hidden+scrolled), and the following offset 150, a delta of -150, shows
    it again in the scrolled style: [header-hidden] is absent and
    [header-scrolled] present. *)
Theorem scenario_scroll_back_up cl :
  let h1 := headerScrollHandler (windowAt 300) (initialHeader cl) in
  let h2 := headerScrollHandler (windowAt 150) h1 in
  headerState h1 = StateHiddenScrolled /\
  currentScroll (windowAt 150) - lastScrollTop h1 == - 150 /\
  headerState h2 = StateScrolled /\
  (header_hidden ∉ classList h2) /\
  header_scrolled ∈ classList h2.
Proof.
  cbv zeta.
  rewrite (handler_down (windowAt 300)) by (vm_compute; congruence).
  rewrite (handler_up (windowAt 150)) by (vm_compute; congruence).
  split; [apply state_hidden|].
  split; [reflexivity|].
  split; [apply state_shown|].
  cbn [classList]. split; classes.
Qed.

(** *** The invariant *)

Lemma handler_preserves_invariant w h :
  hiddenImpliesScrolled h -> hiddenImpliesScrolled (headerScrollHandler w h).
Proof.
  unfold hiddenImpliesScrolled, headerScrollHandler. intros Hinv.
  repeat match goal with
         | |- context [if ?b then _ else _] => destruct b
         end; cbn [classList]; try exact Hinv; classes.
Qed.

Lemma initial_invariant cl :
  header_hidden ∉ cl -> hiddenImpliesScrolled (initialHeader cl).
Proof. unfold hiddenImpliesScrolled. cbn. tauto. Qed.

Lemma headerAfter_snoc ws w h :
  headerAfter (ws ++ [w]) h = headerScrollHandler w (headerAfter ws h).
Proof. unfold headerAfter. now rewrite foldl_app. Qed.

(** C10.  Starting from a header with neither class, after any number of
    runs of the handler, on any windows, the header has [header-scrolled]
    whenever it has [header-hidden]. *)
Theorem hidden_only_when_scrolled ws cl :
  header_hidden ∉ cl -> header_scrolled ∉ cl ->
  hiddenImpliesScrolled (headerAfter ws (initialHeader cl)).
Proof.
  intros Hh _. induction ws as [|w ws IH] using rev_ind.
  - now apply initial_invariant.
  - rewrite headerAfter_snoc. now apply handler_preserves_invariant.
Qed.

Lemma hidden_only_when_scrolled_witness :
  hiddenImpliesScrolled
    (headerAfter (map windowAt [300; 150; 400; 20]) (initialHeader ∅)).
Proof.
  apply (hidden_only_when_scrolled (map windowAt [300; 150; 400; 20]) ∅);
    apply not_elem_of_empty.
Defined.

End HeaderFacts.

(** ** The click handler *)

Module ClickFacts.
Import Dom SmoothScroll EaseFacts.

(** When the target resolves, the default action is suppressed and one
    animation is queued, from the current offset over the target's distance
    from the top of the viewport, to last 1000 ms. *)
Lemma click_target_found doc href target w e :
  href ≠ "#" -> querySelector doc href = Matched target ->
  clickHandler doc href w e =
    (requestAnimFrame
       {| startPosition := pageYOffset w;
          distance := boundingTop target + pageYOffset w - pageYOffset w;
          duration := 1000;
          start := None |} w,
     preventDefault e, Returns).
Proof.
  intros Hne Hq. unfold clickHandler.
  apply String.eqb_neq in Hne. now rewrite Hne, Hq.
Qed.

(** The first frame of an animation scrolls to the start position. *)
Lemma animation_first_frame a currentTime w :
  start a = None -> 0 < duration a ->
  pageYOffset (animation a currentTime w) == startPosition a.
Proof.
  intros Hs Hd. unfold animation. rewrite Hs.
  assert (Hrun : ease (currentTime - currentTime) (startPosition a)
                   (distance a) (duration a) == startPosition a).
  { rewrite ease_progress.
    assert (H0 : halves (currentTime - currentTime) (duration a) == 0)
      by (unfold halves; field; lra).
    rewrite H0, progress_start. ring. }
  destruct (Js.lt _ _); exact Hrun.
Qed.

(** A frame arriving exactly when the duration has elapsed scrolls to the
    target and asks for no further frame. *)
Lemma animation_last_frame a s currentTime w :
  start a = Some s -> 0 < duration a -> currentTime - s == duration a ->
  pageYOffset (animation a currentTime w) == startPosition a + distance a /\
  frameQueue (animation a currentTime w) = frameQueue w.
Proof.
  intros Hs Hd Hel. unfold animation. rewrite Hs.
  assert (Hlt : Js.lt (currentTime - s) (duration a) = false)
    by (apply JsFacts.lt_false; lra).
  rewrite Hlt. cbn [scrollTo pageYOffset frameQueue]. split; [|reflexivity].
  rewrite ease_progress.
  assert (H2 : halves (currentTime - s) (duration a) == 2).
  { unfold halves. rewrite Hel. field. lra. }
  rewrite H2, progress_end. ring.
Qed.

(** C1, as the code has it.  A click on a link whose [href] is exactly
    [#] does not touch the window (the scroll offsets stay, no animation is
    queued), and it suppresses the default action: [preventDefault] is
    called before the handler returns. *)
Theorem click_empty_anchor doc w e :
  clickHandler doc "#" w e = (w, {| defaultPrevented := true |}, Returns).
Proof. reflexivity. Qed.

(** C1, as stated, fails: on a click on a [#] link that arrives with its
    default action still allowed, the handler leaves the scroll position
    alone but does not let the default action proceed. *)
Lemma empty_anchor_default_suppressed :
  let w := windowAt 0 in
  let e := {| defaultPrevented := false |} in
  let '(w', e', _) := clickHandler emptyDocument "#" w e in
  ~ (pageYOffset w' = pageYOffset w /\ defaultPrevented e' = false).
Proof. cbn. intros [_ H]. discriminate H. Qed.

(** C7.  A click on a link whose [href] is not [#] and selects no element
    of the page (the query answers [null], or rejects the string) leaves the
    window as it was (scroll offsets and queued frames) and the event
    untouched: [preventDefault] is not called. *)
Theorem click_missing_target doc href w e :
  href ≠ "#" -> (forall el, querySelector doc href ≠ Matched el) ->
  (clickHandler doc href w e).1 = (w, e).
Proof.
  intros Hne Hq. unfold clickHandler.
  apply String.eqb_neq in Hne. rewrite Hne.
  destruct (querySelector doc href) as [el| |]; [|reflexivity..].
  now destruct (Hq el).
Qed.

Lemma click_missing_target_witness :
  (clickHandler emptyDocument "#missing" (windowAt 240)
     {| defaultPrevented := false |}).1
  = (windowAt 240, {| defaultPrevented := false |}).
Proof.
  apply (click_missing_target emptyDocument "#missing"); [|intros el];
    discriminate.
Defined.

End ClickFacts.

(** ** More on the easing curve *)

Module EaseMore.
Import SmoothScroll EaseFacts.

Lemma halves_ratio t d : 0 < d -> halves t d == 2 * (t / d).
Proof. intros Hd. unfold halves. field. lra. Qed.

Lemma ratio_times t d : 0 < d -> t / d * d == t.
Proof. intros Hd. field. lra. Qed.

(** Elapsed time against the half-duration, read on [halves]. *)
Lemma halves_lt_1 t d : 0 < d -> t < d / 2 -> halves t d < 1.
Proof.
  intros Hd Ht. rewrite (halves_ratio t d Hd).
  pose proof (ratio_times t d Hd) as Hr. half_const.
  destruct (Qlt_le_dec (2 * (t * / d)) 1) as [Hlt|Hge]; [exact Hlt|].
  assert (0 <= (2 * (t * / d) - 1) * d) by nra. nra.
Qed.

Lemma halves_ge_1 t d : 0 < d -> d / 2 <= t -> 1 <= halves t d.
Proof.
  intros Hd Ht. rewrite (halves_ratio t d Hd).
  pose proof (ratio_times t d Hd) as Hr. half_const.
  destruct (Qlt_le_dec (2 * (t * / d)) 1) as [Hlt|Hge]; [|exact Hge].
  assert (0 < (1 - 2 * (t * / d)) * d) by nra. nra.
Qed.

Lemma progress_first_half u : u < 1 -> progress u == u * u / 2.
Proof.
  intros Hu. unfold progress.
  apply JsFacts.lt_true in Hu. now rewrite Hu.
Qed.

Lemma progress_second_half u :
  1 <= u -> progress u == 1 - (u - 2) * (u - 2) / 2.
Proof.
  intros Hu. unfold progress.
  apply JsFacts.lt_false in Hu. rewrite Hu. half_const. ring.
Qed.

Lemma progress_range u : 0 <= u -> u <= 2 -> 0 <= progress u <= 1.
Proof.
  intros H0 H2.
  pose proof (progress_mono 0 u (Qle_refl 0) H0 H2) as Hlo.
  pose proof (progress_mono u 2 H0 H2 (Qle_refl 2)) as Hhi.
  rewrite progress_start in Hlo. rewrite progress_end in Hhi. now split.
Qed.

(** What [ease] computes in its second half, in terms of the time left
    over (or gone past) the duration. *)
Lemma ease_late t b c d :
  0 < d -> d / 2 <= t ->
  ease t b c d == b + c - 2 * c * ((t - d) / d) * ((t - d) / d).
Proof.
  intros Hd Ht.
  rewrite ease_progress, progress_second_half by now apply halves_ge_1.
  rewrite (halves_ratio t d Hd). half_const. field. lra.
Qed.

(** X1.  For a positive duration [d], [ease] is the usual quadratic
    ease-in-out in the ratio [t / d]: [b + 2c (t/d)^2] before half the
    duration, and [b + c - 2c ((t - d)/d)^2] from half the duration on. *)
Theorem ease_closed_form t b c d :
  0 < d ->
  (t < d / 2 -> ease t b c d == b + 2 * c * (t / d) * (t / d)) /\
  (d / 2 <= t ->
   ease t b c d == b + c - 2 * c * ((t - d) / d) * ((t - d) / d)).
Proof.
  intros Hd. split; intros Ht.
  - rewrite ease_progress, progress_first_half by now apply halves_lt_1.
    rewrite (halves_ratio t d Hd). half_const. ring.
  - now apply ease_late.
Qed.

Lemma ease_closed_form_witness :
  (100 < 1000 / 2 -> ease 100 0 300 1000 == 0 + 2 * 300 * (100 / 1000) * (100 / 1000)) /\
  (1000 / 2 <= 100 ->
   ease 100 0 300 1000 ==
     0 + 300 - 2 * 300 * ((100 - 1000) / 1000) * ((100 - 1000) / 1000)).
Proof. apply (ease_closed_form 100 0 300 1000). reflexivity. Defined.

(** X2.  For a positive duration [d] and an elapsed time in [[0, d]], the
    eased position lies between the start position [b] and the target
    [b + c], whichever way the distance points. *)
Theorem ease_between_start_and_target t b c d :
  0 < d -> 0 <= t -> t <= d ->
  (0 <= c -> b <= ease t b c d <= b + c) /\
  (c <= 0 -> b + c <= ease t b c d <= b).
Proof.
  intros Hd H0 Htd.
  pose proof (progress_range (halves t d)
                (halves_nonneg d Hd t H0) (halves_le_2 d Hd t Htd)) as [Hp0 Hp1].
  rewrite ease_progress. split; intros Hc; split; nra.
Qed.

Lemma ease_between_start_and_target_witness :
  (0 <= 500 -> 40 <= ease 250 40 500 1000 <= 40 + 500) /\
  (500 <= 0 -> 40 + 500 <= ease 250 40 500 1000 <= 40).
Proof.
  apply (ease_between_start_and_target 250 40 500 1000);
    vm_compute; congruence.
Defined.

(** X3.  Past the duration the curve turns back: for a positive duration
    [d] and an elapsed time [t > d], the eased position falls short of the
    target [b + c] when the distance is positive, and stays above it when
    the distance is negative. *)
Theorem ease_past_duration_misses_target t b c d :
  0 < d -> d < t ->
  (0 < c -> ease t b c d < b + c) /\
  (c < 0 -> b + c < ease t b c d).
Proof.
  intros Hd Ht.
  assert (Hhalf : d / 2 <= t) by (half_const; lra).
  rewrite (ease_late t b c d Hd Hhalf).
  pose proof (ratio_times (t - d) d Hd) as Hr.
  assert (Hpos : 0 < (t - d) / d).
  { destruct (Qlt_le_dec 0 ((t - d) / d)) as [H|H]; [exact H|].
    assert ((t - d) / d * d <= 0) by nra. lra. }
  assert (Hsq : 0 < (t - d) / d * ((t - d) / d)) by nra.
  split; intros Hc; nra.
Qed.

Lemma ease_past_duration_misses_target_witness :
  (0 < 500 -> ease 1016 40 500 1000 < 40 + 500) /\
  (500 < 0 -> 40 + 500 < ease 1016 40 500 1000).
Proof.
  apply (ease_past_duration_misses_target 1016 40 500 1000);
    vm_compute; congruence.
Defined.

End EaseMore.

(** ** The scroll animation, frame by frame *)

Module AnimationFacts.
Import Dom SmoothScroll Frames EaseFacts EaseMore.

(** The closure as [animation] hands it on, once [start] is assigned. *)
Lemma animation_continues a s t w :
  start a = Some s -> t - s < duration a ->
  animation a t w =
    requestAnimFrame a
      (scrollTo (ease (t - s) (startPosition a) (distance a) (duration a)) w).
Proof.
  intros Hs Hlt. unfold animation. rewrite Hs.
  apply JsFacts.lt_true in Hlt. rewrite Hlt.
  destruct a as [b c d st]. cbn in *. now subst st.
Qed.

Lemma animation_stops a s t w :
  start a = Some s -> duration a <= t - s ->
  animation a t w =
    scrollTo (ease (t - s) (startPosition a) (distance a) (duration a)) w.
Proof.
  intros Hs Hge. unfold animation. rewrite Hs.
  apply JsFacts.lt_false in Hge. now rewrite Hge.
Qed.

(** Whatever the window, the offset a callback scrolls to is its own. *)
Lemma animation_offset a t w w0 :
  pageYOffset (animation a t w) = pageYOffset (animation a t w0).
Proof. unfold animation. now destruct (Js.lt _ _). Qed.

(** A callback puts at most itself back on the queue. *)
Lemma animation_queue_length a t w :
  (length (frameQueue (animation a t w)) <= S (length (frameQueue w)))%nat.
Proof.
  unfold animation. destruct (Js.lt _ _); cbn.
  - rewrite length_app. cbn. lia.
  - lia.
Qed.

Lemma frames_queue_length t q : forall w,
  (length (frameQueue (foldl (fun w' a => animation a t w') w q))
   <= length (frameQueue w) + length q)%nat.
Proof.
  induction q as [|a q IH]; intros w; cbn [foldl length].
  - lia.
  - specialize (IH (animation a t w)).
    pose proof (animation_queue_length a t w). lia.
Qed.

(** X4.  The first frame of an animation (its [start] still [null]) of
    positive duration scrolls to the start position and queues the same
    animation again, with [start] set to the frame's timestamp. *)
Theorem first_frame_starts_clock a t w :
  start a = None -> 0 < duration a ->
  pageYOffset (animation a t w) == startPosition a /\
  scrollTop (animation a t w) == startPosition a /\
  frameQueue (animation a t w) =
    frameQueue w ++
      [{| startPosition := startPosition a; distance := distance a;
          duration := duration a; start := Some t |}].
Proof.
  intros Hs Hd. unfold animation. rewrite Hs.
  assert (Hlt : Js.lt (t - t) (duration a) = true)
    by (apply JsFacts.lt_true; lra).
  rewrite Hlt. cbn [requestAnimFrame scrollTo pageYOffset scrollTop frameQueue].
  assert (Hrun : ease (t - t) (startPosition a) (distance a) (duration a)
                 == startPosition a).
  { rewrite ease_progress.
    assert (H0 : halves (t - t) (duration a) == 0)
      by (unfold halves; field; lra).
    rewrite H0, progress_start. ring. }
  now repeat split.
Qed.

Lemma first_frame_starts_clock_witness :
  let a := {| startPosition := 40; distance := 500; duration := 1000;
              start := None |} in
  pageYOffset (animation a 7 (windowAt 40)) == 40 /\
  scrollTop (animation a 7 (windowAt 40)) == 40 /\
  frameQueue (animation a 7 (windowAt 40)) =
    [] ++ [{| startPosition := 40; distance := 500; duration := 1000;
              start := Some 7 |}].
Proof.
  intros a. apply (first_frame_starts_clock a 7 (windowAt 40));
    reflexivity.
Defined.

(** X5.  A frame that arrives while a started animation of positive
    duration has not run its time ([0 <= elapsed < duration]) scrolls to a
    position between the start position and the target, and queues the
    animation again unchanged. *)
Theorem frame_in_flight a s t w :
  start a = Some s -> 0 < duration a -> s <= t -> t - s < duration a ->
  ((0 <= distance a ->
    startPosition a <= pageYOffset (animation a t w)
                    <= startPosition a + distance a) /\
   (distance a <= 0 ->
    startPosition a + distance a <= pageYOffset (animation a t w)
                                 <= startPosition a)) /\
  frameQueue (animation a t w) = frameQueue w ++ [a].
Proof.
  intros Hs Hd Hst Hlt.
  rewrite (animation_continues a s t w Hs Hlt).
  cbn [requestAnimFrame scrollTo pageYOffset frameQueue].
  split; [|reflexivity].
  assert (H0 : 0 <= t - s) by lra.
  assert (H1 : t - s <= duration a) by lra.
  pose proof (progress_range (halves (t - s) (duration a))
                (halves_nonneg _ Hd _ H0) (halves_le_2 _ Hd _ H1)) as [Hp0 Hp1].
  rewrite ease_progress. split; intros Hc; split; nra.
Qed.

Lemma frame_in_flight_witness :
  let a := {| startPosition := 40; distance := 500; duration := 1000;
              start := Some 7 |} in
  ((0 <= distance a ->
    startPosition a <= pageYOffset (animation a 407 (windowAt 40))
                    <= startPosition a + distance a) /\
   (distance a <= 0 ->
    startPosition a + distance a <= pageYOffset (animation a 407 (windowAt 40))
                                 <= startPosition a)) /\
  frameQueue (animation a 407 (windowAt 40)) = frameQueue (windowAt 40) ++ [a].
Proof.
  intros a. apply (frame_in_flight a 7 407 (windowAt 40));
    vm_compute; congruence.
Defined.

(** X6.  The frame that finds the duration elapsed ends the animation: it
    queues nothing, and it scrolls to the target less
    [2 * distance * ((elapsed - duration) / duration)^2], which is the
    target itself when the frame arrives exactly on time. *)
Theorem last_frame_lands_short a s t w :
  start a = Some s -> 0 < duration a -> duration a <= t - s ->
  frameQueue (animation a t w) = frameQueue w /\
  pageYOffset (animation a t w) ==
    startPosition a + distance a
    - 2 * distance a * ((t - s - duration a) / duration a)
                     * ((t - s - duration a) / duration a).
Proof.
  intros Hs Hd Hge.
  rewrite (animation_stops a s t w Hs Hge).
  cbn [scrollTo pageYOffset frameQueue]. split; [reflexivity|].
  apply ease_late; [exact Hd | half_const; lra].
Qed.

Lemma last_frame_lands_short_witness :
  let a := {| startPosition := 40; distance := 500; duration := 1000;
              start := Some 7 |} in
  frameQueue (animation a 1023 (windowAt 40)) = frameQueue (windowAt 40) /\
  pageYOffset (animation a 1023 (windowAt 40)) ==
    startPosition a + distance a
    - 2 * distance a * ((1023 - 7 - duration a) / duration a)
                     * ((1023 - 7 - duration a) / duration a).
Proof.
  intros a. apply (last_frame_lands_short a 7 1023 (windowAt 40));
    vm_compute; congruence.
Defined.

(** X7.  A frame never lengthens the queue: each callback run puts back at
    most itself, so the animations in flight are never more than the
    clicks that started them. *)
Theorem frame_queue_never_grows t w :
  (length (frameQueue (runFrame t w)) <= length (frameQueue w))%nat.
Proof.
  unfold runFrame.
  pose proof (frames_queue_length t (frameQueue w)
                {| pageYOffset := pageYOffset w; scrollTop := scrollTop w;
                   frameQueue := [] |}) as H.
  cbn in H. exact H.
Qed.

(** X8.  When several animations overlap, the last one queued decides
    where a frame leaves the page: the offset after the frame is the one
    that callback scrolls to. *)
Theorem last_queued_animation_wins t w q a :
  frameQueue w = q ++ [a] ->
  pageYOffset (runFrame t w) = pageYOffset (animation a t w).
Proof.
  intros Hq. unfold runFrame. rewrite Hq, foldl_app. cbn [foldl].
  apply animation_offset.
Qed.

Lemma last_queued_animation_wins_witness :
  let a1 := {| startPosition := 0; distance := 800; duration := 1000;
               start := Some 0 |} in
  let a2 := {| startPosition := 200; distance := -200; duration := 1000;
               start := None |} in
  let w := {| pageYOffset := 200; scrollTop := 200; frameQueue := [a1; a2] |} in
  pageYOffset (runFrame 500 w) = pageYOffset (animation a2 500 w).
Proof.
  intros a1 a2 w. apply (last_queued_animation_wins 500 w [a1] a2).
  reflexivity.
Defined.

End AnimationFacts.

(** ** A click, and the animation it starts *)

Module ClickMore.
Import Dom SmoothScroll Frames EaseFacts EaseMore AnimationFacts.

Lemma href_eqb_false href : href ≠ "#" -> String.eqb href "#" = false.
Proof. intros H. now apply String.eqb_neq. Qed.

(** A frame on a queue holding one started animation that has time left
    keeps the queue as it is. *)
Lemma frame_keeps_single a s t w :
  frameQueue w = [a] -> start a = Some s -> t - s < duration a ->
  frameQueue (runFrame t w) = [a].
Proof.
  intros Hq Hs Hlt. unfold runFrame. rewrite Hq. cbn [foldl].
  now rewrite (animation_continues a s t _ Hs Hlt).
Qed.

Lemma frame_ends_single a s t w :
  frameQueue w = [a] -> start a = Some s -> duration a <= t - s ->
  runFrame t w =
    scrollTo (ease (t - s) (startPosition a) (distance a) (duration a))
      {| pageYOffset := pageYOffset w; scrollTop := scrollTop w;
         frameQueue := [] |}.
Proof.
  intros Hq Hs Hge. unfold runFrame. rewrite Hq. cbn [foldl].
  now rewrite (animation_stops a s t _ Hs Hge).
Qed.

Lemma frames_keep_single a s mid : forall w,
  frameQueue w = [a] -> start a = Some s ->
  Forall (fun t => t - s < duration a) mid ->
  frameQueue (runFrames mid w) = [a].
Proof.
  induction mid as [|t mid IH]; intros w Hq Hs Hall; [exact Hq|].
  inversion Hall as [|? ? Ht Hmid]; subst.
  unfold runFrames. cbn [foldl]. apply IH; [|exact Hs|exact Hmid].
  now apply (frame_keeps_single a s).
Qed.

(** X9.  The click handler itself never scrolls: whatever the link and the
    page, it leaves both scroll offsets as they are, keeps the frames
    already queued, and queues at most one more. *)
Theorem click_never_scrolls doc href w e :
  let w' := (clickHandler doc href w e).1.1 in
  pageYOffset w' = pageYOffset w /\
  scrollTop w' = scrollTop w /\
  (frameQueue w' = frameQueue w \/
   exists a, frameQueue w' = frameQueue w ++ [a]).
Proof.
  unfold clickHandler.
  destruct (String.eqb href "#"); [cbn; auto|].
  destruct (querySelector doc href) as [target| |]; cbn; eauto.
Qed.

(** X10.  After the handler the event's default action is suppressed
    exactly when it already was, or the link is [#], or its [href]
    selects an element of the page. *)
Theorem click_prevents_default_iff doc href w e :
  defaultPrevented (clickHandler doc href w e).1.2 = true <->
  defaultPrevented e = true \/ href = "#" \/
  exists target, querySelector doc href = Matched target.
Proof.
  unfold clickHandler.
  destruct (String.eqb href "#") eqn:Heq.
  - apply String.eqb_eq in Heq. cbn. tauto.
  - apply String.eqb_neq in Heq.
    destruct (querySelector doc href) as [target| |]; cbn.
    + split; eauto.
    + split; [auto|]. intros [H|[H|[t H]]]; [exact H | contradiction | discriminate].
    + split; [auto|]. intros [H|[H|[t H]]]; [exact H | contradiction | discriminate].
Qed.

(** The animation a click starts covers the target's distance from the top
    of the viewport: from the current offset, over
    [getBoundingClientRect().top] of the target, in 1000 ms, with its clock
    not yet started. *)
Lemma click_queues_animation doc href target w e :
  href ≠ "#" -> querySelector doc href = Matched target ->
  exists a,
    frameQueue (clickHandler doc href w e).1.1 = frameQueue w ++ [a] /\
    startPosition a = pageYOffset w /\
    distance a == boundingTop target /\
    duration a = 1000 /\
    start a = None.
Proof.
  intros Hne Hq. unfold clickHandler.
  rewrite (href_eqb_false href Hne), Hq. cbn.
  eexists. split; [reflexivity|]. cbn. repeat split. ring.
Qed.

(** X11.  A click on a link whose target resolves, on a page with no
    animation in flight, followed by a first frame at [t0], any frames
    earlier than [t0 + 1000], and a frame at [tn], [t0 + 1000] or later,
    leaves no frame callback behind, and the page scrolled to the target
    (its viewport top at the click plus the offset at the click) less
    [2 * top * ((tn - t0 - 1000) / 1000)^2]: on the target when the last
    frame is exactly on time. *)
Theorem click_then_frames_reach_target doc href target w e t0 mid tn :
  href ≠ "#" -> querySelector doc href = Matched target ->
  frameQueue w = [] ->
  Forall (fun t => t < t0 + 1000) mid ->
  t0 + 1000 <= tn ->
  let w1 := (clickHandler doc href w e).1.1 in
  let w2 := runFrame tn (runFrames mid (runFrame t0 w1)) in
  pageYOffset w2 ==
    boundingTop target + pageYOffset w
    - 2 * boundingTop target * ((tn - t0 - 1000) / 1000)
                             * ((tn - t0 - 1000) / 1000) /\
  frameQueue w2 = [].
Proof.
  intros Hne Hq Hw Hmid Htn. cbv zeta.
  unfold clickHandler. rewrite (href_eqb_false href Hne), Hq.
  cbn [fst]. set (b := pageYOffset w).
  set (c := boundingTop target + b - b).
  set (a1 := {| startPosition := b; distance := c; duration := 1000;
                start := Some t0 |}).
  (* after the first frame the queue holds the started animation *)
  assert (H1 : frameQueue
                 (runFrame t0
                    (requestAnimFrame
                       {| startPosition := b; distance := c;
                          duration := 1000; start := None |} w)) = [a1]).
  { unfold runFrame, requestAnimFrame. cbn [frameQueue]. rewrite Hw.
    cbn [app foldl]. unfold animation. cbn [start duration].
    assert (Hlt : Js.lt (t0 - t0) 1000 = true)
      by (apply JsFacts.lt_true; lra).
    rewrite Hlt. reflexivity. }
  (* and so it does after the frames in between *)
  assert (H2 : frameQueue
                 (runFrames mid
                    (runFrame t0
                       (requestAnimFrame
                          {| startPosition := b; distance := c;
                             duration := 1000; start := None |} w))) = [a1]).
  { apply (frames_keep_single a1 t0); [exact H1 | reflexivity |].
    eapply Forall_impl; [exact Hmid|]. cbn. intros t Ht. lra. }
  assert (Hge : duration a1 <= tn - t0) by (cbn; lra).
  rewrite (frame_ends_single a1 t0 _ _ H2 eq_refl Hge).
  cbn [scrollTo pageYOffset frameQueue]. split; [|reflexivity].
  cbn [startPosition distance duration a1].
  rewrite ease_late by (half_const; lra). unfold c. ring.
Qed.

Lemma click_then_frames_reach_target_witness :
  let doc := {| querySelector := fun _ => Matched {| boundingTop := 640 |} |} in
  let w1 := (clickHandler doc "#rome" (windowAt 120)
               {| defaultPrevented := false |}).1.1 in
  let w2 := runFrame 1032 (runFrames [32; 48; 500] (runFrame 16 w1)) in
  pageYOffset w2 ==
    640 + pageYOffset (windowAt 120)
    - 2 * 640 * ((1032 - 16 - 1000) / 1000) * ((1032 - 16 - 1000) / 1000) /\
  frameQueue w2 = [].
Proof.
  intros doc.
  apply (click_then_frames_reach_target doc "#rome" {| boundingTop := 640 |}
           (windowAt 120) {| defaultPrevented := false |} 16 [32; 48; 500] 1032).
  - discriminate.
  - reflexivity.
  - reflexivity.
  - repeat constructor.
  - vm_compute. congruence.
Defined.

End ClickMore.

(** ** More on the scroll handler *)

Module HeaderMore.
Import Dom FixedHeader HeaderFacts.

Lemma no_move_is_small x : Qabs (x - x) < deltaThreshold.
Proof.
  assert (H : x - x == 0) by ring. rewrite H. reflexivity.
Qed.

(** The branch the handler takes, by the order of its tests. *)
Lemma handler_cases w h :
  (currentScroll w < 0 /\ headerScrollHandler w h = h) \/
  (0 <= currentScroll w <= scrollThreshold /\
   headerScrollHandler w h =
     {| classList :=
          classList_remove header_scrolled
            (classList_remove header_hidden (classList h));
        lastScrollTop := currentScroll w |}) \/
  (scrollThreshold < currentScroll w /\
   Qabs (currentScroll w - lastScrollTop h) < deltaThreshold /\
   headerScrollHandler w h = h) \/
  (scrollThreshold < currentScroll w /\
   deltaThreshold <= currentScroll w - lastScrollTop h /\
   headerScrollHandler w h =
     {| classList :=
          classList_add header_scrolled
            (classList_add header_hidden (classList h));
        lastScrollTop := currentScroll w |}) \/
  (scrollThreshold < currentScroll w /\
   currentScroll w - lastScrollTop h <= - deltaThreshold /\
   headerScrollHandler w h =
     {| classList :=
          classList_add header_scrolled
            (classList_remove header_hidden (classList h));
        lastScrollTop := currentScroll w |}).
Proof.
  destruct (Qlt_le_dec (currentScroll w) 0) as [Hneg|H0].
  { left. split; [exact Hneg | now apply handler_overscroll]. }
  destruct (Qlt_le_dec scrollThreshold (currentScroll w)) as [Hgt|Hle].
  2:{ right; left. split; [now split | now apply handler_top]. }
  destruct (Qlt_le_dec (Qabs (currentScroll w - lastScrollTop h)) deltaThreshold)
    as [Hsmall|Hbig].
  { right; right; left. repeat split; [exact Hgt | exact Hsmall |].
    now apply handler_small_delta. }
  unfold deltaThreshold in Hbig.
  destruct (Qlt_le_dec 0 (currentScroll w - lastScrollTop h)) as [Hpos|Hnonpos].
  - rewrite Qabs_pos in Hbig by lra.
    right; right; right; left. repeat split; [exact Hgt | exact Hbig |].
    now apply handler_down.
  - rewrite Qabs_neg in Hbig by exact Hnonpos.
    assert (Hd : currentScroll w - lastScrollTop h <= - deltaThreshold)
      by (unfold deltaThreshold; lra).
    right; right; right; right. repeat split; [exact Hgt | exact Hd |].
    now apply handler_up.
Qed.

(** X12.  The handler is idempotent: a second run on the same window
    changes nothing, neither the classes nor [lastScrollTop]. *)
Theorem handler_idempotent w h :
  headerScrollHandler w (headerScrollHandler w h) = headerScrollHandler w h.
Proof.
  destruct (handler_cases w h)
    as [[Hneg E]|[[[H0 Hle] E]|[(Hgt & Hs & E)|[(Hgt & Hd & E)|(Hgt & Hd & E)]]]];
    rewrite E.
  - exact E.
  - rewrite (handler_top w _ H0 Hle). cbn [classList]. f_equal.
    unfold classList_remove. apply set_eq. intros x.
    rewrite !elem_of_difference. tauto.
  - exact E.
  - apply handler_small_delta; [exact Hgt|]. cbn [lastScrollTop].
    apply no_move_is_small.
  - apply handler_small_delta; [exact Hgt|]. cbn [lastScrollTop].
    apply no_move_is_small.
Qed.

(** X13.  The handler only ever touches the two classes it manages: every
    other class is on the header afterwards exactly when it was before. *)
Theorem handler_leaves_other_classes w h c :
  c ≠ header_hidden -> c ≠ header_scrolled ->
  (c ∈ classList (headerScrollHandler w h) <-> c ∈ classList h).
Proof.
  intros Hh Hs.
  destruct (handler_cases w h)
    as [[_ E]|[[_ E]|[(_ & _ & E)|[(_ & _ & E)|(_ & _ & E)]]]];
    rewrite E; cbn [classList]; classes.
Qed.

Lemma handler_leaves_other_classes_witness :
  let h := {| classList := {[ "site-header"; header_hidden ]};
              lastScrollTop := 300 |} in
  "site-header" ∈ classList (headerScrollHandler (windowAt 20) h) <->
  "site-header" ∈ classList h.
Proof.
  intros h. apply (handler_leaves_other_classes (windowAt 20) h);
    discriminate.
Defined.

(** X14.  Below the top of the page the direction of the move decides: an
    offset at least [deltaThreshold] (5) greater than [lastScrollTop] hides
    the header, one at least 5 smaller shows it in the scrolled style; both
    record the offset. *)
Theorem direction_decides w h :
  100 < currentScroll w ->
  (5 <= currentScroll w - lastScrollTop h ->
   headerState (headerScrollHandler w h) = StateHiddenScrolled /\
   lastScrollTop (headerScrollHandler w h) = currentScroll w) /\
  (currentScroll w - lastScrollTop h <= - 5 ->
   headerState (headerScrollHandler w h) = StateScrolled /\
   lastScrollTop (headerScrollHandler w h) = currentScroll w).
Proof.
  intros Hgt. split; intros Hd.
  - rewrite (handler_down w h Hgt Hd). split; [apply state_hidden | reflexivity].
  - rewrite (handler_up w h Hgt Hd). split; [apply state_shown | reflexivity].
Qed.

Lemma direction_decides_witness :
  let w := windowAt 240 in
  let h := {| classList := {[ header_scrolled ]}; lastScrollTop := 200 |} in
  (5 <= currentScroll w - lastScrollTop h ->
   headerState (headerScrollHandler w h) = StateHiddenScrolled /\
   lastScrollTop (headerScrollHandler w h) = currentScroll w) /\
  (currentScroll w - lastScrollTop h <= - 5 ->
   headerState (headerScrollHandler w h) = StateScrolled /\
   lastScrollTop (headerScrollHandler w h) = currentScroll w).
Proof.
  intros w h. apply (direction_decides w h). reflexivity.
Defined.

(** What every run keeps, from a header that starts with neither class:
    the recorded offset is not negative, at the top of the page the header
    has neither class, and below it the header has the scrolled style. *)
Lemma handler_keeps_record w h :
  (0 <= lastScrollTop h /\
   (lastScrollTop h <= scrollThreshold ->
    (header_hidden ∉ classList h) /\ header_scrolled ∉ classList h) /\
   (scrollThreshold < lastScrollTop h -> header_scrolled ∈ classList h)) ->
  let h' := headerScrollHandler w h in
  0 <= lastScrollTop h' /\
  (lastScrollTop h' <= scrollThreshold ->
   (header_hidden ∉ classList h') /\ header_scrolled ∉ classList h') /\
  (scrollThreshold < lastScrollTop h' -> header_scrolled ∈ classList h').
Proof.
  intros Hinv. cbv zeta.
  destruct (handler_cases w h)
    as [[_ E]|[[[H0 Hle] E]|[(_ & _ & E)|[(Hgt & _ & E)|(Hgt & _ & E)]]]];
    rewrite E; try exact Hinv; cbn [classList lastScrollTop];
    unfold scrollThreshold in *.
  - split; [exact H0|]. split; [intros _; split; classes | intros; lra].
  - split; [lra|]. split; [intros; lra | intros _; classes].
  - split; [lra|]. split; [intros; lra | intros _; classes].
Qed.

(** X15.  From a header that starts with neither class, after any runs of
    the handler the recorded [lastScrollTop] is never negative, and the
    header is in the state [none] exactly when the recorded offset is at
    most [scrollThreshold] (100). *)
Theorem none_exactly_at_top ws cl :
  header_hidden ∉ cl -> header_scrolled ∉ cl ->
  let h := headerAfter ws (initialHeader cl) in
  0 <= lastScrollTop h /\
  (headerState h = StateNone <-> lastScrollTop h <= 100).
Proof.
  intros Hh Hs. cbv zeta.
  assert (Hinv :
    0 <= lastScrollTop (headerAfter ws (initialHeader cl)) /\
    (lastScrollTop (headerAfter ws (initialHeader cl)) <= scrollThreshold ->
     (header_hidden ∉ classList (headerAfter ws (initialHeader cl))) /\
     header_scrolled ∉ classList (headerAfter ws (initialHeader cl))) /\
    (scrollThreshold < lastScrollTop (headerAfter ws (initialHeader cl)) ->
     header_scrolled ∈ classList (headerAfter ws (initialHeader cl)))).
  { induction ws as [|w ws IH] using rev_ind.
    - cbn. split; [lra|]. split; [now intros _ | intros H; discriminate H].
    - rewrite headerAfter_snoc. now apply handler_keeps_record. }
  destruct Hinv as (H0 & Htop & Hbelow). split; [exact H0|].
  unfold headerState, scrollThreshold in *.
  destruct (Qlt_le_dec 100 (lastScrollTop (headerAfter ws (initialHeader cl))))
    as [Hgt|Hle].
  - specialize (Hbelow Hgt).
    rewrite (bool_decide_eq_true_2 _ Hbelow).
    split; [destruct (bool_decide _); discriminate | lra].
  - destruct (Htop Hle) as [Hnh Hns].
    rewrite (bool_decide_eq_false_2 _ Hnh), (bool_decide_eq_false_2 _ Hns).
    now split.
Qed.

Lemma none_exactly_at_top_witness :
  let h := headerAfter (map windowAt [300; 150; 40]) (initialHeader ∅) in
  0 <= lastScrollTop h /\
  (headerState h = StateNone <-> lastScrollTop h <= 100).
Proof.
  apply (none_exactly_at_top (map windowAt [300; 150; 40]) ∅);
    apply not_elem_of_empty.
Defined.

(** X16.  Without a header element [initFixedHeaderEffect] sets nothing
    up.  With one, a page already scrolled past [scrollThreshold] when the
    script starts has its header hidden by the initial check, whatever
    classes the header carries. *)
Theorem init_below_top_hides cl w :
  100 < currentScroll w ->
  initFixedHeaderEffect None w = None /\
  exists h, initFixedHeaderEffect (Some cl) w = Some h /\
            headerState h = StateHiddenScrolled /\
            lastScrollTop h = currentScroll w.
Proof.
  intros Hgt. split; [reflexivity|]. eexists. split; [reflexivity|].
  assert (Hd : deltaThreshold <= currentScroll w - lastScrollTop (initialHeader cl))
    by (unfold deltaThreshold; cbn; lra).
  rewrite (handler_down w _ Hgt Hd). split; [apply state_hidden | reflexivity].
Qed.

Lemma init_below_top_hides_witness :
  initFixedHeaderEffect None (windowAt 640) = None /\
  exists h, initFixedHeaderEffect (Some {[ "site-header" ]}) (windowAt 640)
              = Some h /\
            headerState h = StateHiddenScrolled /\
            lastScrollTop h = currentScroll (windowAt 640).
Proof.
  apply (init_below_top_hides {[ "site-header" ]} (windowAt 640)).
  reflexivity.
Defined.

End HeaderMore.

(** ** The throttle *)

Module ThrottleFacts.
Import Dom FixedHeader HeaderFacts Throttle.

(** Either nothing waits and the flag is down, or one callback waits and
    the flag is up. *)
Lemma step_keeps_balance s ev :
  (ticking s = false /\ pendingTicks s = O) \/
  (ticking s = true /\ pendingTicks s = 1%nat) ->
  (ticking (step s ev) = false /\ pendingTicks (step s ev) = O) \/
  (ticking (step s ev) = true /\ pendingTicks (step s ev) = 1%nat).
Proof.
  destruct s as [h t n]. cbn [ticking pendingTicks].
  intros [[-> ->]|[-> ->]]; destruct ev as [|w]; cbn; auto.
Qed.

Lemma throttle_run_snoc evs ev s : run (evs ++ [ev]) s = step (run evs s) ev.
Proof. unfold run. now rewrite foldl_app. Qed.

Lemma run_keeps_balance evs s :
  (ticking s = false /\ pendingTicks s = O) \/
  (ticking s = true /\ pendingTicks s = 1%nat) ->
  (ticking (run evs s) = false /\ pendingTicks (run evs s) = O) \/
  (ticking (run evs s) = true /\ pendingTicks (run evs s) = 1%nat).
Proof.
  intros Hs. induction evs as [|ev evs IH] using rev_ind; [exact Hs|].
  rewrite throttle_run_snoc. now apply step_keeps_balance.
Qed.

(** Scroll events on a throttle that is already waiting change nothing. *)
Lemma scrolls_while_waiting n s :
  ticking s = true -> run (replicate n ScrollEvent) s = s.
Proof.
  intros Ht. induction n as [|n IH]; [reflexivity|].
  cbn [replicate]. unfold run in *. cbn [foldl step].
  unfold requestTick at 1. rewrite Ht. exact IH.
Qed.

(** X17.  After the script has started, whatever scroll events and frames
    follow, at most one tick callback is waiting, and [ticking] is up
    exactly while one is. *)
Theorem at_most_one_tick_pending cl w0 evs :
  let s := run evs (start cl w0) in
  (pendingTicks s <= 1)%nat /\
  (ticking s = true <-> pendingTicks s = 1%nat).
Proof.
  cbv zeta.
  assert (Hidle : (ticking (start cl w0) = false /\
                   pendingTicks (start cl w0) = O) \/
                  (ticking (start cl w0) = true /\
                   pendingTicks (start cl w0) = 1%nat))
    by (left; split; reflexivity).
  destruct (run_keeps_balance evs (start cl w0) Hidle) as [[Ht Hn]|[Ht Hn]];
    rewrite Ht, Hn.
  - split; [lia|]. split; discriminate.
  - split; [lia|]. split; reflexivity.
Qed.

(** X18.  Any burst of one or more scroll events on an idle throttle
    collapses into one run of the handler: when the waiting callback runs,
    the handler is applied once, to the window as it is then, and the
    throttle is idle again. *)
Theorem scroll_burst_runs_handler_once n w s :
  idle s ->
  run (replicate (S n) ScrollEvent ++ [RunTick w]) s =
    {| header := headerScrollHandler w (header s); ticking := false;
       pendingTicks := 0 |}.
Proof.
  intros [Ht Hn]. rewrite throttle_run_snoc. cbn [replicate].
  unfold run. cbn [foldl]. fold (run (replicate n ScrollEvent) (step s ScrollEvent)).
  assert (Hs : step s ScrollEvent =
               {| header := header s; ticking := true; pendingTicks := 1 |}).
  { cbn. unfold requestTick. now rewrite Ht, Hn. }
  rewrite Hs, scrolls_while_waiting by reflexivity.
  reflexivity.
Qed.

Lemma scroll_burst_runs_handler_once_witness :
  run (replicate 4 ScrollEvent ++ [RunTick (windowAt 300)])
      (start ∅ (windowAt 0)) =
    {| header := headerScrollHandler (windowAt 300) (header (start ∅ (windowAt 0)));
       ticking := false; pendingTicks := 0 |}.
Proof.
  apply (scroll_burst_runs_handler_once 3 (windowAt 300) (start ∅ (windowAt 0))).
  split; reflexivity.
Defined.

(** The header is only ever changed by runs of the handler, so what the
    handler keeps, the throttle keeps. *)
Lemma step_keeps_header_invariant s ev :
  hiddenImpliesScrolled (header s) ->
  hiddenImpliesScrolled (header (step s ev)).
Proof.
  intros Hinv. destruct ev as [|w]; cbn.
  - unfold requestTick. now destruct (negb (ticking s)).
  - destruct (pendingTicks s); [exact Hinv|]. cbn.
    now apply handler_preserves_invariant.
Qed.

(** X19.  Through the whole path the script installs (the initial check,
    then scroll events and throttled frames in any order), a header that
    started with neither class never has [header-hidden] without
    [header-scrolled]. *)
Theorem throttled_header_keeps_invariant cl w0 evs :
  header_hidden ∉ cl -> header_scrolled ∉ cl ->
  hiddenImpliesScrolled (header (run evs (start cl w0))).
Proof.
  intros Hh _. induction evs as [|ev evs IH] using rev_ind.
  - cbn. apply handler_preserves_invariant. now apply initial_invariant.
  - rewrite throttle_run_snoc. now apply step_keeps_header_invariant.
Qed.

Lemma throttled_header_keeps_invariant_witness :
  hiddenImpliesScrolled
    (header (run [ScrollEvent; ScrollEvent; RunTick (windowAt 300);
                  ScrollEvent; RunTick (windowAt 150)]
               (start ∅ (windowAt 0)))).
Proof.
  apply (throttled_header_keeps_invariant ∅ (windowAt 0));
    apply not_elem_of_empty.
Defined.

End ThrottleFacts.

(** ** The debounce utility *)

Module DebounceFacts.
Import Debounce.

Section Debounced.
Context {A : Type}.
Variable wait : Q.

Lemma clear_latest (s : State A) :
  onlyLatestPending s -> clearTimeout (timeout s) (timers s) = ∅.
Proof.
  intros Hinv. apply map_empty. intros i.
  destruct (clearTimeout (timeout s) (timers s) !! i) as [x|] eqn:E; [|reflexivity].
  exfalso. unfold clearTimeout in E. destruct (timeout s) as [tid|] eqn:Ht.
  - destruct (decide (tid = i)) as [->|Hne].
    + rewrite lookup_delete_eq in E. discriminate.
    + rewrite lookup_delete_ne in E by exact Hne.
      assert (Hs : timeout s = Some i) by (apply Hinv; eauto).
      congruence.
  - assert (Hs : timeout s = Some i) by (apply Hinv; eauto). congruence.
Qed.

Lemma call_sets_one_timer now args (s : State A) :
  onlyLatestPending s ->
  timers (executedFunction wait now args s) =
    {[ nextTimer s := (now + wait, args) ]}.
Proof.
  intros Hinv. cbn. now rewrite (clear_latest s Hinv).
Qed.

Lemma step_keeps_latest (s : State A) ev :
  onlyLatestPending s -> onlyLatestPending (step wait s ev).
Proof.
  intros Hinv. destruct ev as [now args|now id]; cbn [step].
  - intros i Hi. rewrite (call_sets_one_timer now args s Hinv) in Hi.
    cbn. destruct (decide (nextTimer s = i)) as [->|Hne]; [reflexivity|].
    rewrite lookup_singleton_ne in Hi by exact Hne. now destruct Hi.
  - unfold timerFires.
    destruct (timers s !! id) as [[deadline args]|] eqn:E; [|exact Hinv].
    destruct (Js.le deadline now); [|exact Hinv].
    intros i Hi. cbn in *.
    assert (Hsub : is_Some (timers s !! i)).
    { destruct (timeout s) as [tid|]; cbn in Hi.
      - destruct (decide (tid = i)) as [->|Hne];
          [rewrite lookup_delete_eq in Hi; now destruct Hi|].
        rewrite lookup_delete_ne in Hi by exact Hne.
        destruct (decide (id = i)) as [->|Hne'];
          [rewrite lookup_delete_eq in Hi; now destruct Hi|].
        now rewrite lookup_delete_ne in Hi by exact Hne'.
      - destruct (decide (id = i)) as [->|Hne'];
          [rewrite lookup_delete_eq in Hi; now destruct Hi|].
        now rewrite lookup_delete_ne in Hi by exact Hne'. }
    now apply Hinv.
Qed.

Lemma debounce_run_snoc evs ev (s : State A) :
  run wait (evs ++ [ev]) s = step wait (run wait evs s) ev.
Proof. unfold run. now rewrite foldl_app. Qed.

Lemma run_keeps_latest evs (s : State A) :
  onlyLatestPending s -> onlyLatestPending (run wait evs s).
Proof.
  intros Hs. induction evs as [|ev evs IH] using rev_ind; [exact Hs|].
  rewrite debounce_run_snoc. now apply step_keeps_latest.
Qed.

Lemma initial_latest : onlyLatestPending (@initial A).
Proof. intros id [x Hx]. cbn in Hx. now rewrite lookup_empty in Hx. Qed.

Lemma calls_do_not_invoke calls : forall s : State A,
  invoked (run wait (map (fun c => Call c.1 c.2) calls) s) = invoked s.
Proof.
  induction calls as [|[t a] calls IH]; intros s; [reflexivity|].
  cbn [map]. unfold run in *. cbn [foldl step]. now rewrite IH.
Qed.

End Debounced.

(** X20.  Of the timers a debounced function has set, at most one is ever
    pending: a pending timer is always the one its [timeout] variable
    names, since every call cancels the timer before it. *)
Theorem only_latest_timer_pending {A : Type} (wait : Q)
    (evs : list (Event A)) (id : nat) :
  is_Some (timers (run wait evs initial) !! id) ->
  timeout (run wait evs initial) = Some id.
Proof.
  apply (run_keeps_latest wait evs initial initial_latest).
Qed.

Lemma only_latest_timer_pending_witness :
  timeout (run 100 [Call 0 "a"; Call 30 "b"; Call 70 "c"] initial)
  = Some 2%nat.
Proof.
  apply (only_latest_timer_pending 100 [Call 0 "a"; Call 30 "b"; Call 70 "c"]).
  exists (70 + 100, "c"). vm_compute. reflexivity.
Defined.

(** X21.  Trailing edge.  After a burst of calls (at any times, after any
    history), the one pending timer is due [wait] after the last call.
    Run before that it does nothing; run at or after it, it invokes [func]
    once, with the arguments of the last call, and no timer is left.  The
    calls themselves invoke nothing. *)
Theorem burst_invokes_last_call_once {A : Type} (wait : Q)
    (evs : list (Event A)) (calls : list (Q * A)) (tn : Q) (an : A) :
  let s0 := run wait evs initial in
  let s := run wait (map (fun c => Call c.1 c.2) calls ++ [Call tn an]) s0 in
  invoked s = invoked s0 /\
  exists id,
    timeout s = Some id /\
    (forall now, now < tn + wait -> timerFires now id s = s) /\
    (forall now, tn + wait <= now ->
       invoked (timerFires now id s) = invoked s0 ++ [an] /\
       timers (timerFires now id s) = ∅).
Proof.
  cbv zeta. rewrite debounce_run_snoc. cbn [step].
  set (s1 := run wait (map (fun c => Call c.1 c.2) calls)
               (run wait evs initial)).
  assert (Hinv : onlyLatestPending s1)
    by (apply run_keeps_latest, run_keeps_latest, initial_latest).
  assert (Hinvoked : invoked s1 = invoked (run wait evs initial))
    by apply calls_do_not_invoke.
  split; [exact Hinvoked|].
  exists (nextTimer s1). split; [reflexivity|].
  pose proof (call_sets_one_timer wait tn an s1 Hinv) as Ht.
  split; intros now Hnow; unfold timerFires; rewrite Ht, lookup_singleton_eq.
  - apply JsFacts.le_false in Hnow. now rewrite Hnow.
  - apply JsFacts.le_true in Hnow. rewrite Hnow. cbn.
    split; [now rewrite Hinvoked|].
    now rewrite !delete_singleton_eq.
Qed.

Section Invocations.
Context {A : Type}.
Variable wait : Q.

(** What has been invoked, followed by what the pending timer would
    invoke, is drawn in order from the calls made. *)
Lemma invoked_then_pending_from_calls (evs : list (Event A)) :
  let s := run wait evs initial in
  invoked s `sublist_of` calledWith evs /\
  forall id d a, timers s !! id = Some (d, a) ->
    invoked s ++ [a] `sublist_of` calledWith evs.
Proof.
  cbv zeta. induction evs as [|ev evs [IH1 IH2]] using rev_ind.
  - split; [apply sublist_nil_l|]. intros id d a H. cbn in H.
    now rewrite lookup_empty in H.
  - pose proof (run_keeps_latest wait evs initial initial_latest) as Hinv.
    rewrite debounce_run_snoc. unfold calledWith in *. rewrite omap_app.
    destruct ev as [now args|now id]; cbn [step omap].
    + split.
      * cbn [executedFunction invoked]. now apply sublist_inserts_r.
      * intros i d a Hi.
        rewrite (call_sets_one_timer wait now args _ Hinv) in Hi.
        apply lookup_singleton_Some in Hi as [_ Hi].
        injection Hi as _ <-. cbn [executedFunction invoked].
        now apply sublist_app.
    + rewrite app_nil_r. unfold timerFires.
      destruct (timers (run wait evs initial) !! id)
        as [[deadline args]|] eqn:E; [|now split].
      destruct (Js.le deadline now); [|now split].
      cbn [invoked timers]. split; [now apply (IH2 id deadline)|].
      intros i d a Hi. exfalso.
      assert (Hid : timeout (run wait evs initial) = Some id)
        by (apply Hinv; eauto).
      rewrite Hid in Hi. cbn [clearTimeout] in Hi.
      destruct (decide (id = i)) as [->|Hne];
        [now rewrite lookup_delete_eq in Hi|].
      rewrite !lookup_delete_ne in Hi by exact Hne.
      assert (Hi' : timeout (run wait evs initial) = Some i)
        by (apply Hinv; eauto).
      congruence.
Qed.

End Invocations.

(** X22.  A debounced function never invokes [func] on its own account:
    the arguments [func] has been invoked with are, in order, arguments of
    calls made, each call accounting for at most one invocation.  In
    particular there are never more invocations than calls. *)
Theorem invocations_drawn_from_calls {A : Type} (wait : Q)
    (evs : list (Event A)) :
  invoked (run wait evs initial) `sublist_of` calledWith evs /\
  (length (invoked (run wait evs initial)) <= length (calledWith evs))%nat.
Proof.
  destruct (invoked_then_pending_from_calls wait evs) as [Hsub _].
  split; [exact Hsub | now apply sublist_length].
Qed.

End DebounceFacts.

(** ** Revealing cards *)

Module RevealFacts.
Import Reveal.

Lemma styleOf_set el st styles el' :
  styleOf (setStyle el st styles) el' =
    if decide (el = el') then st else styleOf styles el'.
Proof.
  unfold styleOf, setStyle. rewrite lookup_insert.
  now destruct (decide (el = el')).
Qed.

Lemma animateIntoView_shown st : shown (animateIntoView st).
Proof. split; reflexivity || (unfold animateIntoView; now simplify_map_eq). Qed.

(** The callback, entry by entry from the last. *)
Lemma observerCallback_snoc entries entry styles :
  observerCallback (entries ++ [entry]) styles =
    let sts := observerCallback entries styles in
    if isIntersecting entry
    then setStyle (target entry)
           (animateIntoView (styleOf sts (target entry))) sts
    else sts.
Proof. unfold observerCallback. now rewrite foldl_app. Qed.

(** X23.  The observer's callback leaves alone every element that no entry
    reports as intersecting: its style is what it was. *)
Theorem callback_leaves_others entries styles el :
  (forall entry, entry ∈ entries -> isIntersecting entry = true ->
                 target entry ≠ el) ->
  styleOf (observerCallback entries styles) el = styleOf styles el.
Proof.
  induction entries as [|entry entries IH] using rev_ind; intros Hno;
    [reflexivity|].
  rewrite observerCallback_snoc. cbv zeta.
  assert (IH' : styleOf (observerCallback entries styles) el = styleOf styles el).
  { apply IH. intros e He. apply Hno. apply elem_of_app. now left. }
  destruct (isIntersecting entry) eqn:Hi; [|exact IH'].
  rewrite styleOf_set.
  destruct (decide (target entry = el)) as [Heq|_]; [|exact IH'].
  exfalso. apply (Hno entry); [|exact Hi|exact Heq].
  apply elem_of_app. right. now apply list_elem_of_singleton.
Qed.

Lemma callback_leaves_others_witness :
  styleOf
    (observerCallback
       [{| isIntersecting := true; target := 1 |};
        {| isIntersecting := false; target := 2 |}] ∅) 2%nat
  = styleOf ∅ 2%nat.
Proof.
  apply (callback_leaves_others
           [{| isIntersecting := true; target := 1 |};
            {| isIntersecting := false; target := 2 |}] ∅ 2%nat).
  intros entry He Hi.
  apply elem_of_cons in He as [->|He]; [discriminate|].
  apply list_elem_of_singleton in He as ->. discriminate Hi.
Defined.

(** X24.  After the callback, every element that some entry reports as
    intersecting is shown: its opacity is [1] and its transform
    [translateY(0)]. *)
Theorem callback_shows_intersecting entries styles entry :
  entry ∈ entries -> isIntersecting entry = true ->
  shown (styleOf (observerCallback entries styles) (target entry)).
Proof.
  induction entries as [|e entries IH] using rev_ind; intros He Hi.
  - now apply elem_of_nil in He.
  - rewrite observerCallback_snoc. cbv zeta.
    apply elem_of_app in He as [He|He].
    + specialize (IH He Hi).
      destruct (isIntersecting e); [|exact IH].
      rewrite styleOf_set.
      destruct (decide (target e = target entry));
        [apply animateIntoView_shown | exact IH].
    + apply list_elem_of_singleton in He as <-. rewrite Hi, styleOf_set.
      rewrite decide_True by reflexivity. apply animateIntoView_shown.
Qed.

Lemma callback_shows_intersecting_witness :
  shown
    (styleOf
       (observerCallback
          [{| isIntersecting := true; target := 1 |};
           {| isIntersecting := false; target := 2 |}] ∅) 1%nat).
Proof.
  apply (callback_shows_intersecting
           [{| isIntersecting := true; target := 1 |};
            {| isIntersecting := false; target := 2 |}] ∅
           {| isIntersecting := true; target := 1 |}).
  - apply elem_of_cons. now left.
  - reflexivity.
Defined.

(** X25.  A card that is shown stays shown through every later callback,
    whatever the entries say, also when they report it as no longer
    intersecting: the callback never hides. *)
Theorem shown_stays_shown entries styles el :
  shown (styleOf styles el) ->
  shown (styleOf (observerCallback entries styles) el).
Proof.
  intros Hs. induction entries as [|e entries IH] using rev_ind; [exact Hs|].
  rewrite observerCallback_snoc. cbv zeta.
  destruct (isIntersecting e); [|exact IH].
  rewrite styleOf_set.
  destruct (decide (target e = el)); [apply animateIntoView_shown | exact IH].
Qed.

Lemma shown_stays_shown_witness :
  let styles := observerCallback [{| isIntersecting := true; target := 1 |}] ∅ in
  shown
    (styleOf
       (observerCallback [{| isIntersecting := false; target := 1 |}] styles)
       1%nat).
Proof.
  intros styles.
  apply (shown_stays_shown [{| isIntersecting := false; target := 1 |}]
           styles 1%nat).
  apply animateIntoView_shown.
Defined.

Lemma fallback_fold cards : forall styles el,
  (el ∈ cards ->
   shown (styleOf
            (foldl (fun sts card => setStyle card (showCard (styleOf sts card)) sts)
               styles cards) el)) /\
  (shown (styleOf styles el) ->
   shown (styleOf
            (foldl (fun sts card => setStyle card (showCard (styleOf sts card)) sts)
               styles cards) el)) /\
  (el ∉ cards ->
   styleOf
     (foldl (fun sts card => setStyle card (showCard (styleOf sts card)) sts)
        styles cards) el = styleOf styles el).
Proof.
  induction cards as [|card cards IH] using rev_ind; intros styles el.
  - split; [intros H; now apply elem_of_nil in H | now split].
  - rewrite foldl_app. cbn [foldl]. rewrite styleOf_set.
    destruct (IH styles el) as (IHin & IHshown & IHout).
    destruct (decide (card = el)) as [->|Hne].
    + assert (Hsh : forall st, shown (showCard st))
        by (intros st; split; unfold showCard; now simplify_map_eq).
      split; [intros _; apply Hsh|]. split; [intros _; apply Hsh|].
      intros Hnot. exfalso. apply Hnot, elem_of_app. right.
      now apply list_elem_of_singleton.
    + split; [|split].
      * intros Hin. apply elem_of_app in Hin as [Hin|Hin]; [now apply IHin|].
        apply list_elem_of_singleton in Hin. congruence.
      * exact IHshown.
      * intros Hnot. apply IHout. intros Hin. apply Hnot, elem_of_app. now left.
Qed.

(** X26.  Without [IntersectionObserver] the script shows every card at
    once and watches none; elements that are not cards keep their style.
    With it, the script touches no style and watches every card. *)
Theorem fallback_shows_every_card cards styles :
  (let '(styles', observed) := initIntersectionObserver false cards styles in
   observed = [] /\
   (forall card, card ∈ cards -> shown (styleOf styles' card)) /\
   (forall el, el ∉ cards -> styleOf styles' el = styleOf styles el)) /\
  initIntersectionObserver true cards styles = (styles, cards).
Proof.
  split; [|reflexivity]. unfold initIntersectionObserver. cbn [negb].
  split; [reflexivity|]. split.
  - intros card Hin.
    destruct (fallback_fold cards styles card) as (H & _ & _). now apply H.
  - intros el Hnot.
    destruct (fallback_fold cards styles el) as (_ & _ & H). now apply H.
Qed.

End RevealFacts.

(** ** The viewport test *)

Module ViewportFacts.
Import Viewport.

(** X27.  An element is reported in the viewport only if it fits: its
    edges are inside, so [bottom - top] is at most the viewport height and
    [right - left] at most the viewport width ([innerHeight] and
    [innerWidth], or the document element's client sizes where those are
    [0]). *)
Theorem in_viewport_fits rect v :
  isInViewport rect v = true ->
  0 <= rectTop rect /\ 0 <= rectLeft rect /\
  rectBottom rect - rectTop rect <= viewportHeight v /\
  rectRight rect - rectLeft rect <= viewportWidth v.
Proof.
  unfold isInViewport, ge, viewportHeight, viewportWidth.
  rewrite !andb_true_iff, !JsFacts.le_true.
  intros [[[Ht Hl] Hb] Hr]. repeat split; lra.
Qed.

Lemma in_viewport_fits_witness :
  let rect := {| rectTop := 10; rectLeft := 0; rectBottom := 300;
                 rectRight := 200 |} in
  let v := {| innerHeight := 0; clientHeight := 600; innerWidth := 800;
              clientWidth := 780 |} in
  0 <= rectTop rect /\ 0 <= rectLeft rect /\
  rectBottom rect - rectTop rect <= viewportHeight v /\
  rectRight rect - rectLeft rect <= viewportWidth v.
Proof.
  intros rect v. apply (in_viewport_fits rect v). reflexivity.
Defined.

End ViewportFacts.

(** ** Touch feedback *)

Module TouchFacts.
Import Dom Touch.

Lemma touch_run_snoc evs ev b : run (evs ++ [ev]) b = step (run evs b) ev.
Proof. unfold run. now rewrite foldl_app. Qed.

(** X28.  The highlight never gets stuck: once a touch has ended and no
    new touch has begun, the button still has the class [touched] only
    while a timer that will remove it is pending. *)
Theorem highlight_never_stuck b before t after :
  Forall (fun ev => ev ≠ TouchStart) after ->
  touched ∈ classes (run (before ++ TouchEnd t :: after) b) ->
  removals (run (before ++ TouchEnd t :: after) b) ≠ [].
Proof.
  induction after as [|ev after IH] using rev_ind; intros Hno.
  - intros _. rewrite touch_run_snoc. cbn. intros H.
    now apply app_eq_nil in H as [_ H].
  - apply Forall_app in Hno as [Hno Hev].
    apply Forall_inv in Hev. specialize (IH Hno).
    replace (before ++ TouchEnd t :: after ++ [ev])
      with ((before ++ TouchEnd t :: after) ++ [ev])
      by now rewrite <- app_assoc.
    rewrite touch_run_snoc.
    set (b' := run (before ++ TouchEnd t :: after) b) in *.
    destruct ev as [|now|now]; cbn [step].
    + now destruct Hev.
    + cbn. intros _ H. now apply app_eq_nil in H as [_ H].
    + destruct (removals b') as [|deadline rest] eqn:E.
      { intros Hin. now destruct (IH Hin). }
      destruct (Js.le deadline now); [|intros _; rewrite E; discriminate].
      cbn [classes]. unfold classList_remove. intros Hin.
      apply elem_of_difference in Hin as [_ Hin].
      exfalso. apply Hin. now apply elem_of_singleton.
Qed.

Lemma highlight_never_stuck_witness :
  removals (run ([TouchStart] ++ TouchEnd 10 :: [TimerFires 200])
              {| classes := ∅; removals := [] |}) ≠ [].
Proof.
  apply (highlight_never_stuck {| classes := ∅; removals := [] |}
           [TouchStart] 10 [TimerFires 200]).
  - repeat constructor; discriminate.
  - change (touched ∈ classList_add touched ∅).
    unfold classList_add. apply elem_of_union_l, elem_of_singleton_2.
    reflexivity.
Defined.

End TouchFacts.
